(** * Payload, TreeState and TreeHeadState: a shallow embedding

    The server-side renderer accumulates its output in a tree of
    [Payload]s.  Each payload owns an array [#out] of [string | Payload]
    entries, a [type] ('head' or 'body'), and a [promises] record; the
    tree-wide [TreeState] is shared by reference.

    Modelling decisions, all of them local to this file:

    - entries owned by a payload are held by value, so a payload is a
      finitely branching tree ([Item], [Payload]); the [parent]
      back-reference is not stored (a value tree has its parent in its
      context, and only [get_path] reads it);
    - a payload value is the tree as it stands when the call that
      receives it is made, at the logical time [now];
    - a JS promise is a value of [Promise A]: the logical time at which it
      settles and what it resolves with.  The promise in
      [promises.initial] resolves with the entries its producer leaves in
      [#out]; a promise of [promises.followup] resolves with the
      placeholder as its compaction leaves it.  Promises that reject are
      not modelled;
    - an [async] function is a function of the time at which it is called,
      returning its result and the time at which it returns; [await p]
      moves the clock to [max] of now and [settled_at p];
    - objects shared by reference ([TreeState], [TreeHeadState], the
      title record, the css [Set]s and the css records) live in a [Heap]
      of stores addressed by [loc]. *)

From Stdlib Require Import String List ZArith Lia Bool Arith PeanoNat DecimalString
  Permutation DecimalNat.
Import ListNotations.
Local Open Scope string_scope.
Local Open Scope list_scope.

(** ** Values *)

(** [@typedef {'head' | 'body'} PayloadType] *)
Inductive PayloadType : Type := Head | Body.

(** [@typedef {{ [key in PayloadType]: string }} AccumulatedContent] *)
Record AccumulatedContent : Type := { head : string; body : string }.

Definition loc := nat.
Definition time := nat.

(** A promise: when it settles and what it resolves with. *)
Record Promise (A : Type) : Type := { settled_at : time; resolved : A }.
Arguments settled_at {A} _.
Arguments resolved {A} _.

(** [@typedef {T | Promise<T>} MaybePromise<T>] *)
Inductive MaybePromise (A : Type) : Type :=
| Now (a : A)
| Later (p : Promise A).
Arguments Now {A} _.
Arguments Later {A} _.

(** [x instanceof Promise] *)
Definition instanceof_Promise {A} (x : MaybePromise A) : bool :=
  match x with Now _ => false | Later _ => true end.

(** [{ select_value: string | undefined }] *)
Record Local : Type := { select_value : option string }.

(** The entries of [#out] and the payload that owns them. *)
#[warnings="-register-all"]
Inductive Item : Type :=
| Str (s : string)
| Sub (p : Payload)
with Payload : Type :=
| mkPayload (out : list Item)
            (type : PayloadType)
            (initial : option (Promise (list Item)))
            (followup : option (list (Promise Payload)))
            (global : loc)
            (local : Local).

Definition out (p : Payload) : list Item :=
  match p with mkPayload o _ _ _ _ _ => o end.
Definition type (p : Payload) : PayloadType :=
  match p with mkPayload _ t _ _ _ _ => t end.
Definition initial (p : Payload) : option (Promise (list Item)) :=
  match p with mkPayload _ _ i _ _ _ => i end.
Definition followup (p : Payload) : option (list (Promise Payload)) :=
  match p with mkPayload _ _ _ f _ _ => f end.
Definition global (p : Payload) : loc :=
  match p with mkPayload _ _ _ _ g _ => g end.
Definition local (p : Payload) : Local :=
  match p with mkPayload _ _ _ _ _ l => l end.

(** [{ head: '', body: '' }] *)
Definition empty_content : AccumulatedContent := {| head := ""; body := "" |}.

(** JS truthiness of a string. *)
Definition truthy (s : string) : bool :=
  match s with EmptyString => false | String _ _ => true end.

(** [content[current_type] += item] *)
Definition append_to (content : AccumulatedContent) (current_type : PayloadType)
    (item : string) : AccumulatedContent :=
  match current_type with
  | Head => {| head := head content ++ item; body := body content |}
  | Body => {| head := head content; body := body content ++ item |}
  end.

(** ** Promises and logical time *)

(** [await p], called at time [t]: the time at which the caller resumes. *)
Definition await {A} (p : Promise A) (t : time) : time := Nat.max t (settled_at p).

(** [for (const followup of fs) await followup], started at time [t]. *)
Definition await_each {A} (fs : list (Promise A)) (t : time) : time :=
  fold_left (fun t f => await f t) fs t.

(** [p.then(f)] for a callback that may itself return a promise. *)
Definition Promise_then {A B} (p : Promise A) (f : A -> MaybePromise B) : Promise B :=
  match f (resolved p) with
  | Now b => {| settled_at := settled_at p; resolved := b |}
  | Later q => {| settled_at := Nat.max (settled_at p) (settled_at q);
                  resolved := resolved q |}
  end.

(** What a segment holds once it is available. *)
Definition settled_value {A} (x : MaybePromise A) : A :=
  match x with Now a => a | Later p => resolved p end.

(** [Promise.all(xs)], called at time [now]: results by index. *)
Definition Promise_all {A} (now : time) (xs : list (MaybePromise A)) : Promise (list A) :=
  {| settled_at := fold_left
       (fun t x => match x with Now _ => t | Later p => Nat.max t (settled_at p) end)
       xs now;
     resolved := map settled_value xs |}.

(** The entries of [p.#out] as read at time [t]: while the producer of
    [p] is pending they are the ones it has pushed so far, afterwards the
    ones its promise resolved with. *)
Definition out_at (t : time) (p : Payload) : list Item :=
  match p with
  | mkPayload o _ (Some pr) _ _ _ =>
      if (settled_at pr <=? t)%nat then resolved pr else o
  | mkPayload o _ None _ _ _ => o
  end.

(** ** The heap of shared objects *)

(** A store of objects of one class: the next free address and the
    object at each address. *)
Record Store (A : Type) : Type := { next : loc; cell : loc -> A }.
Arguments next {A} _.
Arguments cell {A} _ _.

Definition alloc {A} (a : A) (s : Store A) : loc * Store A :=
  (next s,
   {| next := S (next s);
      cell := fun l => if (l =? next s)%nat then a else cell s l |}).

Definition write {A} (l : loc) (a : A) (s : Store A) : Store A :=
  {| next := next s;
     cell := fun l' => if (l' =? l)%nat then a else cell s l' |}.

(** [{ path: number[], value: string }] *)
Record Title : Type := { path : list Z; value : string }.

(** [t.path = p] and [t.value = v] on a title record. *)
Definition with_path (t : Title) (p : list Z) : Title :=
  {| path := p; value := value t |}.
Definition with_value (t : Title) (v : string) : Title :=
  {| path := path t; value := v |}.

(** [{ hash: string; code: string }] *)
Record Css : Type := { hash : string; code : string }.

(** The two closures stored in a [#uid] field: the one
    [props_id_generator] returns, with its captured [prefix] and [uid],
    and the field initializer [() => '']. *)
Inductive Closure : Type :=
| id_generator (prefix : string) (uid : nat)
| empty_string_fn.

(** The private fields of a [TreeHeadState]; [#css] and [#title] hold
    references. *)
Record TreeHeadStateFields : Type :=
  { head_css : loc; head_uid : loc; head_title : loc }.

(** The private fields of a [TreeState]. *)
Record TreeStateFields : Type :=
  { state_uid : loc; state_css : loc; state_head : loc }.

Record Heap : Type :=
  { titles : Store Title;
    sets : Store (list loc);       (* a [Set] of css records, in insertion order *)
    csses : Store Css;
    closures : Store Closure;
    head_states : Store TreeHeadStateFields;
    tree_states : Store TreeStateFields }.

(** Computations on the heap. *)
Definition M (A : Type) : Type := Heap -> A * Heap.

Definition ret {A} (a : A) : M A := fun h => (a, h).
Definition bind {A B} (c : M A) (k : A -> M B) : M B :=
  fun h => let '(a, h') := c h in k a h'.

Declare Scope heap_scope.
Delimit Scope heap_scope with heap.
Notation "x <- c ;; k" := (bind c (fun x => k))
  (at level 100, c at next level, right associativity) : heap_scope.
Notation "c ;; k" := (bind c (fun _ => k))
  (at level 100, right associativity) : heap_scope.
Local Open Scope heap_scope.

Definition run {A} (c : M A) (h : Heap) : A := fst (c h).
Definition exec {A} (c : M A) (h : Heap) : Heap := snd (c h).

Definition new_title (t : Title) : M loc := fun h =>
  let '(l, s) := alloc t (titles h) in
  (l, {| titles := s; sets := sets h; csses := csses h; closures := closures h;
         head_states := head_states h; tree_states := tree_states h |}).
Definition get_title (l : loc) : M Title := fun h => (cell (titles h) l, h).
Definition put_title (l : loc) (t : Title) : M unit := fun h =>
  (tt, {| titles := write l t (titles h); sets := sets h; csses := csses h;
          closures := closures h; head_states := head_states h;
          tree_states := tree_states h |}).

Definition new_set (entries : list loc) : M loc := fun h =>
  let '(l, s) := alloc entries (sets h) in
  (l, {| titles := titles h; sets := s; csses := csses h; closures := closures h;
         head_states := head_states h; tree_states := tree_states h |}).
Definition get_set (l : loc) : M (list loc) := fun h => (cell (sets h) l, h).
Definition put_set (l : loc) (entries : list loc) : M unit := fun h =>
  (tt, {| titles := titles h; sets := write l entries (sets h); csses := csses h;
          closures := closures h; head_states := head_states h;
          tree_states := tree_states h |}).

Definition new_css (c : Css) : M loc := fun h =>
  let '(l, s) := alloc c (csses h) in
  (l, {| titles := titles h; sets := sets h; csses := s; closures := closures h;
         head_states := head_states h; tree_states := tree_states h |}).
Definition get_css (l : loc) : M Css := fun h => (cell (csses h) l, h).

Definition new_closure (c : Closure) : M loc := fun h =>
  let '(l, s) := alloc c (closures h) in
  (l, {| titles := titles h; sets := sets h; csses := csses h; closures := s;
         head_states := head_states h; tree_states := tree_states h |}).
Definition get_closure (l : loc) : M Closure := fun h => (cell (closures h) l, h).
Definition put_closure (l : loc) (c : Closure) : M unit := fun h =>
  (tt, {| titles := titles h; sets := sets h; csses := csses h;
          closures := write l c (closures h); head_states := head_states h;
          tree_states := tree_states h |}).

Definition new_head_state (o : TreeHeadStateFields) : M loc := fun h =>
  let '(l, s) := alloc o (head_states h) in
  (l, {| titles := titles h; sets := sets h; csses := csses h; closures := closures h;
         head_states := s; tree_states := tree_states h |}).
Definition get_head_state (l : loc) : M TreeHeadStateFields :=
  fun h => (cell (head_states h) l, h).
Definition put_head_state (l : loc) (o : TreeHeadStateFields) : M unit := fun h =>
  (tt, {| titles := titles h; sets := sets h; csses := csses h; closures := closures h;
          head_states := write l o (head_states h); tree_states := tree_states h |}).

Definition new_tree_state (o : TreeStateFields) : M loc := fun h =>
  let '(l, s) := alloc o (tree_states h) in
  (l, {| titles := titles h; sets := sets h; csses := csses h; closures := closures h;
         head_states := head_states h; tree_states := s |}).
Definition get_tree_state (l : loc) : M TreeStateFields :=
  fun h => (cell (tree_states h) l, h).
Definition put_tree_state (l : loc) (o : TreeStateFields) : M unit := fun h =>
  (tt, {| titles := titles h; sets := sets h; csses := csses h; closures := closures h;
          head_states := head_states h; tree_states := write l o (tree_states h) |}).

(** The heap before anything is allocated. *)
Definition empty_store {A} (a : A) : Store A := {| next := 0; cell := fun _ => a |}.
Definition empty_heap : Heap :=
  {| titles := empty_store {| path := []; value := "" |};
     sets := empty_store [];
     csses := empty_store {| hash := ""; code := "" |};
     closures := empty_store empty_string_fn;
     head_states := empty_store {| head_css := 0; head_uid := 0; head_title := 0 |};
     tree_states := empty_store {| state_uid := 0; state_css := 0; state_head := 0 |} |}.

(** *** [Set.prototype.add], [new Set(iterable)] *)

(** [set.add(x)]: entries are compared by reference. *)
Definition Set_add (set : loc) (x : loc) : M unit :=
  entries <- get_set set ;;
  if existsb (Nat.eqb x) entries then ret tt
  else put_set set (entries ++ [x]).

(** [new Set(other)] *)
Definition Set_from (other : loc) : M loc :=
  entries <- get_set other ;;
  new_set entries.

(** *** [props_id_generator] *)

(** [function props_id_generator(prefix)] *)
Definition props_id_generator (prefix : string) : M loc :=
  new_closure (id_generator prefix 1).

(** Calling a [#uid] closure. *)
Definition call_uid (f : loc) : M string :=
  c <- get_closure f ;;
  match c with
  | id_generator prefix uid =>
      put_closure f (id_generator prefix (S uid)) ;;
      ret (prefix ++ "s" ++ NilEmpty.string_of_uint (Nat.to_uint uid))%string
  | empty_string_fn => ret ""
  end.

(** ** TreeHeadState *)

Module TreeHeadState.

(** The field initializers, then the body of [constructor(uid)]. *)
Definition new (uid : loc) : M loc :=
  css0 <- new_set [] ;;
  uid0 <- new_closure empty_string_fn ;;
  title0 <- new_title {| path := []; value := "" |} ;;
  this <- new_head_state {| head_css := css0; head_uid := uid0; head_title := title0 |} ;;
  css1 <- new_set [] ;;
  title1 <- new_title {| path := []; value := "" |} ;;
  put_head_state this {| head_css := css1; head_uid := uid; head_title := title1 |} ;;
  ret this.

(** [get css()] *)
Definition css (this : loc) : M loc :=
  o <- get_head_state this ;; ret (head_css o).

(** [get uid()] *)
Definition uid (this : loc) : M loc :=
  o <- get_head_state this ;; ret (head_uid o).

(** [get title()]: the reference held in [#title]. *)
Definition title (this : loc) : M loc :=
  o <- get_head_state this ;; ret (head_title o).

(** What the loop of the setter decides. *)
Inductive Verdict : Type := Replace | Keep.

(** [for (let i = 0; i < max_len; i++)] of [set title], from index [i]
    with [n] iterations left.  [nth_error] is [None] where indexing
    the array gives [undefined]. *)
Fixpoint compare_from (n : nat) (i : nat) (contender_path current_path : list Z)
    : Verdict :=
  match n with
  | O => Keep
  | S n' =>
      match nth_error contender_path i with
      | None => Keep
      | Some contender_segment =>
          match nth_error current_path i with
          | None => Replace
          | Some current_segment =>
              if (contender_segment >? current_segment)%Z then Replace
              else if (contender_segment <? current_segment)%Z then Keep
              else compare_from n' (S i) contender_path current_path
          end
      end
  end.

(** [set title(value)] *)
Definition set_title (this : loc) (value : Title) : M unit :=
  let '(Build_Title value_path value_value) := value in
  title_ref <- title this ;;
  current <- get_title title_ref ;;
  let contender_path := value_path in
  let current_path := path current in
  let max_len := Nat.max (length contender_path) (length current_path) in
  match compare_from max_len 0 contender_path current_path with
  | Replace =>
      title_ref <- title this ;;
      t <- get_title title_ref ;;
      put_title title_ref (with_path t value_path) ;;
      title_ref <- title this ;;
      t <- get_title title_ref ;;
      put_title title_ref (with_value t value_value)
  | Keep => ret tt
  end.

(** [copy()] *)
Definition copy (this : loc) : M loc :=
  o <- get_head_state this ;;
  head_state <- new (head_uid o) ;;
  css' <- Set_from (head_css o) ;;
  n <- get_head_state head_state ;;
  put_head_state head_state
    {| head_css := css'; head_uid := head_uid n; head_title := head_title n |} ;;
  title_ref <- title this ;;
  n <- get_head_state head_state ;;
  put_head_state head_state
    {| head_css := head_css n; head_uid := head_uid n; head_title := title_ref |} ;;
  ret head_state.

(** [subsume(other)] *)
Definition subsume (this other : loc) : M unit :=
  o <- get_head_state other ;;
  n <- get_head_state this ;;
  put_head_state this
    {| head_css := head_css o; head_uid := head_uid n; head_title := head_title n |} ;;
  o <- get_head_state other ;;
  n <- get_head_state this ;;
  put_head_state this
    {| head_css := head_css n; head_uid := head_uid n; head_title := head_title o |} ;;
  o <- get_head_state other ;;
  n <- get_head_state this ;;
  put_head_state this
    {| head_css := head_css n; head_uid := head_uid o; head_title := head_title n |}.

End TreeHeadState.

(** ** TreeState *)

Module TreeState.

(** [constructor(id_prefix = '')] *)
Definition new (id_prefix : option string) : M loc :=
  let id_prefix := match id_prefix with Some s => s | None => "" end in
  uid <- props_id_generator id_prefix ;;
  css <- new_set [] ;;
  head <- TreeHeadState.new uid ;;
  new_tree_state {| state_uid := uid; state_css := css; state_head := head |}.

(** [get css()] *)
Definition css (this : loc) : M loc :=
  o <- get_tree_state this ;; ret (state_css o).

(** [get uid()] *)
Definition uid (this : loc) : M loc :=
  o <- get_tree_state this ;; ret (state_uid o).

(** [get head()] *)
Definition head (this : loc) : M loc :=
  o <- get_tree_state this ;; ret (state_head o).

(** [copy()] *)
Definition copy (this : loc) : M loc :=
  state <- new None ;;
  o <- get_tree_state this ;;
  css' <- Set_from (state_css o) ;;
  n <- get_tree_state state ;;
  put_tree_state state
    {| state_uid := state_uid n; state_css := css'; state_head := state_head n |} ;;
  head' <- TreeHeadState.copy (state_head o) ;;
  n <- get_tree_state state ;;
  put_tree_state state
    {| state_uid := state_uid n; state_css := state_css n; state_head := head' |} ;;
  n <- get_tree_state state ;;
  put_tree_state state
    {| state_uid := state_uid o; state_css := state_css n; state_head := state_head n |} ;;
  ret state.

(** [subsume(other)] *)
Definition subsume (this other : loc) : M unit :=
  o <- get_tree_state other ;;
  n <- get_tree_state this ;;
  put_tree_state this
    {| state_uid := state_uid n; state_css := state_css o; state_head := state_head n |} ;;
  o <- get_tree_state other ;;
  n <- get_tree_state this ;;
  put_tree_state this
    {| state_uid := state_uid o; state_css := state_css n; state_head := state_head n |} ;;
  o <- get_tree_state other ;;
  n <- get_tree_state this ;;
  TreeHeadState.subsume (state_head n) (state_head o).

End TreeState.

(** ** Collection *)

(** [Payload.#squash_accumulated_content] *)
Definition squash_accumulated_content (content_array : list AccumulatedContent)
    : AccumulatedContent :=
  fold_left
    (fun acc content =>
       {| head := head acc ++ head content; body := body acc ++ body content |})
    content_array empty_content.

(** *** Suspending traversal *)

Section CollectContentAsyncLoop.
(** What the loop body does with an entry that is a payload. *)
Variable visit : Payload -> AccumulatedContent -> time -> AccumulatedContent * time.

(** [for (const item of items)] of [#collect_content_async]. *)
Fixpoint collect_content_async_loop (items : list Item) (current_type : PayloadType)
    (content : AccumulatedContent) (t : time) {struct items}
    : AccumulatedContent * time :=
  match items with
  | [] => (content, t)
  | Str s :: rest =>
      collect_content_async_loop rest current_type (append_to content current_type s) t
  | Sub item :: rest =>
      let '(content', t') := visit item content t in
      collect_content_async_loop rest current_type content' t'
  end.
End CollectContentAsyncLoop.

(** The [else] branch of that loop body: await [item.promises.initial],
    then every followup in turn, then recurse into [item.#out] with
    [item.type] and the same [content]. *)
Fixpoint collect_content_async_item (item : Payload) (content : AccumulatedContent)
    (t : time) {struct item} : AccumulatedContent * time :=
  let t1 := match initial item with Some p => await p t | None => t end in
  let t2 := await_each (match followup item with Some fs => fs | None => [] end) t1 in
  collect_content_async_loop collect_content_async_item
    (out_at t2 item) (type item) content t2.

(** [Payload.#collect_content_async], called at time [t]: the content it
    returns and the time at which it returns. *)
Definition collect_content_async (items : list Item) (current_type : PayloadType)
    (content : AccumulatedContent) (t : time) : AccumulatedContent * time :=
  collect_content_async_loop collect_content_async_item items current_type content t.

(** The promise an [async] call made at time [now] hands back. *)
Definition async_call {A} (now : time) (f : time -> A * time) : Promise A :=
  let '(a, t) := f now in {| settled_at := t; resolved := a |}.

(** *** Blocking traversal *)

(** The locals of [#collect_content]. *)
Record Segments : Type :=
  { segments : list (MaybePromise AccumulatedContent);
    has_async : bool;
    content : AccumulatedContent }.

(** [flush] *)
Definition flush (st : Segments) : Segments :=
  if truthy (head (content st)) || truthy (body (content st)) then
    {| segments := segments st ++ [Now (content st)];
       has_async := has_async st;
       content := empty_content |}
  else st.

Section CollectContentLoop.
Variable now : time.
(** [Payload.#collect_content(item.#out, item.type, { head: '', body: '' })] *)
Variable collect_sub : Payload -> MaybePromise AccumulatedContent.

(** [for (const item of items)] of [#collect_content]. *)
Fixpoint collect_content_loop (items : list Item) (current_type : PayloadType)
    (st : Segments) {struct items} : Segments :=
  match items with
  | [] => st
  | Str s :: rest =>
      collect_content_loop rest current_type
        {| segments := segments st;
           has_async := has_async st;
           content := append_to (content st) current_type s |}
  | Sub item :: rest =>
      let st := flush st in
      let st :=
        match initial item with
        | Some _ =>
            {| segments := segments st ++
                 [Later (async_call now
                    (collect_content_async [Sub item] current_type empty_content))];
               has_async := true;
               content := content st |}
        | None =>
            let sub := collect_sub item in
            {| segments := segments st ++ [sub];
               has_async := if instanceof_Promise sub then true else has_async st;
               content := content st |}
        end in
      collect_content_loop rest current_type st
  end.

(** A segment read as an [AccumulatedContent]; a promise has neither
    field, and [+=] of [undefined] appends the text "undefined". *)
Definition as_content (seg : MaybePromise AccumulatedContent) : AccumulatedContent :=
  match seg with
  | Now c => c
  | Later _ => {| head := "undefined"; body := "undefined" |}
  end.

(** The tail of [#collect_content]: the last [flush] and the [return]s. *)
Definition collect_content_return (st : Segments) : MaybePromise AccumulatedContent :=
  let st := flush st in
  if has_async st then
    Later (Promise_then (Promise_all now (segments st))
             (fun content_array => Now (squash_accumulated_content content_array)))
  else
    Now (squash_accumulated_content (map as_content (segments st))).
End CollectContentLoop.

Definition start (content : AccumulatedContent) : Segments :=
  {| segments := []; has_async := false; content := content |}.

(** [#collect_content(item.#out, item.type, { head: '', body: '' })],
    by recursion on the payload. *)
Fixpoint collect_content_sub (now : time) (item : Payload) {struct item}
    : MaybePromise AccumulatedContent :=
  collect_content_return now
    (collect_content_loop now (collect_content_sub now)
       (out item) (type item) (start empty_content)).

(** [Payload.#collect_content], called at time [now]. *)
Definition collect_content (now : time) (items : list Item) (current_type : PayloadType)
    (content : AccumulatedContent) : MaybePromise AccumulatedContent :=
  collect_content_return now
    (collect_content_loop now (collect_content_sub now) items current_type (start content)).

(** What a call returns or throws. *)
Inductive Completion (A : Type) : Type :=
| Return (a : A)
| Throw (message : string).
Arguments Return {A} _.
Arguments Throw {A} _.

(** [Payload.collect] *)
Definition collect (now : time) (this : Payload) : Completion AccumulatedContent :=
  match collect_content now (out this) (type this) empty_content with
  | Later _ =>
      Throw "Encountered an asynchronous component while rendering synchronously"
  | Now content => Return content
  end.

(** [Payload.then], called at time [now]; [onfulfilled] is taken to
    return a plain value. *)
Definition then_ {B} (now : time) (this : Payload) (onfulfilled : AccumulatedContent -> B)
    : Promise B :=
  match collect_content now [Sub this] (type this) empty_content with
  | Now content => {| settled_at := now; resolved := onfulfilled content |}
  | Later p => {| settled_at := await p now; resolved := onfulfilled (resolved p) |}
  end.

(** ** Payload: construction and mutation *)

(** The body of [constructor(global, local, parent, type)];
    [type ?? parent?.type ?? 'body']. *)
Definition Payload_init (global : loc) (local : Local) (parent : option Payload)
    (type : option PayloadType) : Payload :=
  mkPayload []
    (match type, parent with
     | Some t, _ => t
     | None, Some (mkPayload _ parent_type _ _ _ _) => parent_type
     | None, None => Body
     end)
    None None global {| select_value := select_value local |}.

(** [new Payload(global, local, parent, type)], every argument optional:
    the default parameters, then the body. *)
Definition new_Payload (global : option loc) (local : option Local)
    (parent : option Payload) (type : option PayloadType) : M Payload :=
  g <- match global with Some g => ret g | None => TreeState.new None end ;;
  let l := match local with Some l => l | None => {| select_value := None |} end in
  ret (Payload_init g l parent type).

Definition set_out (this : Payload) (o : list Item) : Payload :=
  mkPayload o (type this) (initial this) (followup this) (global this) (local this).
Definition set_initial (this : Payload) (i : option (Promise (list Item))) : Payload :=
  mkPayload (out this) (type this) i (followup this) (global this) (local this).
Definition set_followup (this : Payload) (f : option (list (Promise Payload))) : Payload :=
  mkPayload (out this) (type this) (initial this) f (global this) (local this).

(** [push(content)] *)
Definition push (this : Payload) (content : string) : Payload :=
  set_out this (out this ++ [Str content]).

(** [child(render, type)].  [render] is given the new child and returns
    it as it stands when the call returns, with the promise if it
    returned one. *)
Definition child (this : Payload)
    (render : Payload -> Payload * option (Promise (list Item)))
    (type : option PayloadType) : Payload :=
  let child := Payload_init (global this) (local this) (Some this) type in
  let '(child, result) := render child in
  let child :=
    match result with
    | Some promise => set_initial child (Some promise)
    | None => child
    end in
  set_out this (out this ++ [Sub child]).

(** [get length()] *)
Definition length_ (this : Payload) : nat := length (out this).

(** [Object.entries(accumulated_content)]: the two keys in creation
    order; a promise has no own enumerable property. *)
Definition Object_entries (accumulated_content : MaybePromise AccumulatedContent)
    : list (PayloadType * string) :=
  match accumulated_content with
  | Now c => [(Head, head c); (Body, body c)]
  | Later _ => []
  end.

(** [Payload.#push_accumulated_content] *)
Definition push_accumulated_content (tree : Payload)
    (accumulated_content : MaybePromise AccumulatedContent) : Payload :=
  fold_left
    (fun tree '(type, content) =>
       if truthy content then
         let child := Payload_init (global tree) (local tree) (Some tree) (Some type) in
         let child := push child content in
         set_out tree (out tree ++ [Sub child])
       else tree)
    (Object_entries accumulated_content) tree.

(** [array.splice(start, deleteCount, item)] on integers: the removed
    entries and the array afterwards. *)
Definition splice {A} (array : list A) (start deleteCount : Z) (item : A)
    : list A * list A :=
  let len := Z.of_nat (length array) in
  let actual_start :=
    if (start <? 0)%Z then Z.max (len + start) 0 else Z.min start len in
  let actual_delete_count := Z.min (Z.max deleteCount 0) (len - actual_start) in
  let before := firstn (Z.to_nat actual_start) array in
  let from := skipn (Z.to_nat actual_start) array in
  (firstn (Z.to_nat actual_delete_count) from,
   before ++ item :: skipn (Z.to_nat actual_delete_count) from).

(** [compact({ start, end = this.#out.length, fn })], called at time
    [now].  The placeholder is put into the array as the call leaves it. *)
Definition compact (now : time) (this : Payload) (start : Z) (end_ : option Z)
    (fn : AccumulatedContent -> MaybePromise AccumulatedContent) : Payload :=
  let end_ := match end_ with Some e => e | None => Z.of_nat (length (out this)) end in
  let child := Payload_init (global this) (local this) (Some this) None in
  let to_compact := fst (splice (out this) start (end_ - start) (Sub child)) in
  let content := collect_content now to_compact (type this) empty_content in
  match content with
  | Later content =>
      let followup_ :=
        Promise_then
          (Promise_then content (fun content => fn content))
          (fun transformed_content =>
             Now (push_accumulated_content child (Now transformed_content))) in
      let this := set_out this (snd (splice (out this) start (end_ - start) (Sub child))) in
      set_followup this
        (Some (match followup this with Some fs => fs | None => [] end ++ [followup_]))
  | Now content =>
      let child := push_accumulated_content child (fn content) in
      set_out this (snd (splice (out this) start (end_ - start) (Sub child)))
  end.

(** [subsume(other)] *)
Section SubsumeLoop.
Variable subsume_self : Payload -> M Payload.

(** [other.#out.map((item) => { ... item.subsume(item) ... return item })] *)
Fixpoint subsume_map (items : list Item) : M (list Item) :=
  match items with
  | [] => ret []
  | Str s :: rest =>
      rest' <- subsume_map rest ;;
      ret (Str s :: rest')
  | Sub item :: rest =>
      item' <- subsume_self item ;;
      rest' <- subsume_map rest ;;
      ret (Sub item' :: rest')
  end.
End SubsumeLoop.

Fixpoint subsume (this other : Payload) {struct other} : M Payload :=
  TreeState.subsume (global this) (global other) ;;
  out' <- subsume_map (fun item => subsume item item) (out other) ;;
  ret (mkPayload out' (type other) (initial other) (followup other)
         (global this) (local other)).

(** ** Document order, as the specification words it *)

Definition same_type (a b : PayloadType) : bool :=
  match a, b with
  | Head, Head | Body, Body => true
  | _, _ => false
  end.

(** Concatenation of two two-channel records, channel by channel. *)
Definition concat_content (a b : AccumulatedContent) : AccumulatedContent :=
  {| head := head a ++ head b; body := body a ++ body b |}.

Section Fragments.
(** The fragments of an entry that is a payload. *)
Variable below : Payload -> list (PayloadType * string).

(** Entries left to right; a raw fragment is tagged with the channel of
    the payload whose array holds it. *)
Fixpoint fragments_of_items (items : list Item) (owner_type : PayloadType)
    : list (PayloadType * string) :=
  match items with
  | [] => []
  | Str s :: rest => (owner_type, s) :: fragments_of_items rest owner_type
  | Sub p :: rest => below p ++ fragments_of_items rest owner_type
  end.
End Fragments.

(** Depth-first, left-to-right list of the fragments pushed into a tree,
    each with the channel of the node that owns it. *)
Fixpoint fragments (p : Payload) : list (PayloadType * string) :=
  fragments_of_items fragments (out p) (type p).

(** The entries a payload holds once its producer has settled. *)
Definition final_out (p : Payload) : list Item :=
  match p with
  | mkPayload _ _ (Some pr) _ _ _ => resolved pr
  | mkPayload o _ None _ _ _ => o
  end.

(** The same list on the tree as every producer leaves it. *)
Fixpoint final_fragments (p : Payload) : list (PayloadType * string) :=
  fragments_of_items final_fragments (final_out p) (type p).

(** The text of one channel: its fragments, concatenated in order. *)
Fixpoint channel (ch : PayloadType) (frags : list (PayloadType * string)) : string :=
  match frags with
  | [] => ""
  | (c, s) :: rest =>
      if same_type c ch then s ++ channel ch rest else channel ch rest
  end.

(** The two-channel record of a list of fragments. *)
Definition document_order (frags : list (PayloadType * string)) : AccumulatedContent :=
  {| head := channel Head frags; body := channel Body frags |}.

(** [p] records no work of its own: [promises.initial] is unset and
    [promises.followup] is unset or empty. *)
Definition no_promises (p : Payload) : bool :=
  match initial p, followup p with
  | None, None | None, Some [] => true
  | _, _ => false
  end.

Section Everywhere.
Variable below : Payload -> bool.
Fixpoint forall_items (items : list Item) : bool :=
  match items with
  | [] => true
  | Str _ :: rest => forall_items rest
  | Sub p :: rest => below p && forall_items rest
  end.
Fixpoint exists_items (items : list Item) : bool :=
  match items with
  | [] => false
  | Str _ :: rest => exists_items rest
  | Sub p :: rest => below p || exists_items rest
  end.
End Everywhere.

(** [p] and every payload below it record no work: everything in the
    tree was produced synchronously.  (The code cannot ask a promise
    whether it has settled; what it tests is whether one is recorded.) *)
Fixpoint settled (p : Payload) : bool :=
  no_promises p && forall_items settled (out p).

(** Some payload among [items] or below has [promises.initial] set. *)
Fixpoint pending_initial (p : Payload) : bool :=
  match initial p with
  | Some _ => true
  | None => exists_items pending_initial (out p)
  end.

(** ** Definitions the statements use *)

Definition no_local : Local := {| select_value := None |}.

(** A head payload holding "a", then a body child holding "b" with a
    head grandchild holding "c", then "d". *)
Definition nested_channels : Payload :=
  mkPayload
    [Str "a";
     Sub (mkPayload [Str "b"; Sub (mkPayload [Str "c"] Head None None 0 no_local)]
            Body None None 0 no_local);
     Str "d"]
    Head None None 0 no_local.

(** The entries [compact] takes out of [this.#out]. *)
Definition compacted_range (this : Payload) (start : Z) (end_ : option Z) : list Item :=
  let end_ := match end_ with Some e => e | None => Z.of_nat (length (out this)) end in
  fst (splice (out this) start (end_ - start) (Sub this)).

Definition three_entries : Payload :=
  mkPayload
    [Str "x";
     Sub (mkPayload [Str "t"] Head None None 0 no_local);
     Sub (mkPayload [Str "q"] Body None None 0 no_local);
     Str "z"]
    Head None None 0 no_local.

(** A producer that returns a promise settling at [settles], having pushed
    nothing yet, and leaves [entries] behind. *)
Definition async_render (settles : time) (entries : list Item)
    : Payload -> Payload * option (Promise (list Item)) :=
  fun child => (child, Some {| settled_at := settles; resolved := out child ++ entries |}).

(** The record [this.title] refers to. *)
Definition read_title (this : loc) : M Title :=
  title_ref <- TreeHeadState.title this ;;
  get_title title_ref.

(** [candidate] is lexicographically later than [stored]: at the first
    index where the two differ, [stored] has run out or the segment of
    [candidate] is greater. *)
Fixpoint later_than (candidate stored : list Z) : bool :=
  match candidate, stored with
  | [], _ => false
  | _ :: _, [] => true
  | c :: candidate', s :: stored' =>
      if (c >? s)%Z then true
      else if (c <? s)%Z then false
      else later_than candidate' stored'
  end.

(** [head.title = value] for each candidate in turn. *)
Fixpoint set_titles (this : loc) (candidates : list Title) : M unit :=
  match candidates with
  | [] => ret tt
  | value :: rest => TreeHeadState.set_title this value ;; set_titles this rest
  end.

(** The rule of the setter on the stored record. *)
Definition assign (current value : Title) : Title :=
  if later_than (path value) (path current) then value else current.

(** How many entries of [set] have the hash [k]. *)
Definition count_hash (set : loc) (k : string) : M nat :=
  entries <- get_set set ;;
  fun h =>
    (length (filter (fun r => (hash (cell (csses h) r) =? k)%string) entries), h).

(** [state.css.add(first); state.css.add(second)] on a new [TreeState],
    then the number of entries with the hash [k]. *)
Definition add_two (first second : M loc) (k : string) : M nat :=
  state <- TreeState.new None ;;
  r1 <- first ;;
  r2 <- second ;;
  set <- TreeState.css state ;;
  Set_add set r1 ;;
  Set_add set r2 ;;
  count_hash set k.

(** The title stored in the head state of the tree state [state]. *)
Definition state_title (state : loc) : M Title :=
  head <- TreeState.head state ;;
  read_title head.

(** [copy = state.copy(); copy.head.title = value] *)
Definition set_title_on_copy (state : loc) (value : Title) : M unit :=
  copy <- TreeState.copy state ;;
  head <- TreeState.head copy ;;
  TreeHeadState.set_title head value.

(** ** Definitions the proofs use *)

(** [P] holds of every payload among the entries. *)
Definition item_all (P : Payload -> Prop) (i : Item) : Prop :=
  match i with Str _ => True | Sub p => P p end.

(** Everything gathered so far: the segments already pushed, settled,
    then the content not yet flushed. *)
Definition gathered (st : Segments) : AccumulatedContent :=
  concat_content
    (squash_accumulated_content (map settled_value (segments st)))
    (content st).

(** [has_async] says whether a promise was pushed. *)
Definition consistent (st : Segments) : Prop :=
  has_async st = existsb instanceof_Promise (segments st).

(** [visit] appends the fragments [below p] to the content it is given. *)
Definition visit_ok
    (visit : Payload -> AccumulatedContent -> time -> AccumulatedContent * time)
    (below : Payload -> list (PayloadType * string)) (p : Payload) : Prop :=
  forall c t, fst (visit p c t) = concat_content c (document_order (below p)).

(** [collect_sub p] holds the fragments of the entries of [p], and is a
    promise exactly when a producer below [p] is pending. *)
Definition sub_ok (collect_sub : Payload -> MaybePromise AccumulatedContent)
    (p : Payload) : Prop :=
  settled_value (collect_sub p)
  = document_order (fragments_of_items final_fragments (out p) (type p))
  /\ instanceof_Promise (collect_sub p) = exists_items pending_initial (out p).

(** ** Further definitions the statements use *)

(** The message of the error [collect] throws. *)
Definition asynchronous_component : string :=
  "Encountered an asynchronous component while rendering synchronously".

(** What the entries [items] of a payload of type [ty] hold, as a
    two-channel record, once every producer has settled. *)
Definition content_of (items : list Item) (ty : PayloadType) : AccumulatedContent :=
  document_order (fragments_of_items final_fragments items ty).

Section Latest.
Variable below : Payload -> time.
Fixpoint latest_of_items (items : list Item) : time :=
  match items with
  | [] => 0
  | Str _ :: rest => latest_of_items rest
  | Sub p :: rest => Nat.max (below p) (latest_of_items rest)
  end.
End Latest.

(** The latest time at which a producer of the tree settles (0 when none
    is recorded). *)
Fixpoint latest_initial (p : Payload) : time :=
  Nat.max (match initial p with Some pr => settled_at pr | None => 0 end)
          (latest_of_items latest_initial (final_out p)).

(** No compaction followup is recorded in [p] or below it, in the
    entries the producers leave. *)
Fixpoint without_followups (p : Payload) : bool :=
  match followup p with
  | None | Some [] => forall_items without_followups (final_out p)
  | Some (_ :: _) => false
  end.
(** Two outcomes of [collect], one after the other. *)
Definition and_then (a b : Completion AccumulatedContent)
    : Completion AccumulatedContent :=
  match a, b with
  | Return x, Return y => Return (concat_content x y)
  | Throw m, _ => Throw m
  | Return _, Throw m => Throw m
  end.

(** What [collect] answers for a payload whose entries are [before],
    then a payload that holds [middle], then [after]. *)
Definition collect_around (before after : list Item) (ty : PayloadType)
    (middle : AccumulatedContent) : Completion AccumulatedContent :=
  if exists_items pending_initial (before ++ after) then
    Throw asynchronous_component
  else
    Return (concat_content (content_of before ty)
              (concat_content middle (content_of after ty))).


(** The entries of the css set of a tree state, and of its head state. *)
Definition css_entries (state : loc) : M (list loc) :=
  set <- TreeState.css state ;;
  get_set set.
Definition head_css_entries (state : loc) : M (list loc) :=
  head <- TreeState.head state ;;
  set <- TreeHeadState.css head ;;
  get_set set.

(** [state.css.add(r)] and [state.head.css.add(r)] *)
Definition css_add (state : loc) (r : loc) : M unit :=
  set <- TreeState.css state ;;
  Set_add set r.
Definition head_css_add (state : loc) (r : loc) : M unit :=
  head <- TreeState.head state ;;
  set <- TreeHeadState.css head ;;
  Set_add set r.

(** The entries of a [Set] after [add(r)]. *)
Definition added (entries : list loc) (r : loc) : list loc :=
  if existsb (Nat.eqb r) entries then entries else entries ++ [r].

(** [state] and the objects its fields refer to were allocated in [h]. *)
Definition allocated (h : Heap) (state : loc) : Prop :=
  let o := cell (tree_states h) state in
  let hd := cell (head_states h) (state_head o) in
  state < next (tree_states h)
  /\ state_css o < next (sets h)
  /\ state_head o < next (head_states h)
  /\ head_css hd < next (sets h)
  /\ head_title hd < next (titles h).

(** The heap after [new TreeState()] on the empty heap; the state is at 0. *)
Definition one_state : Heap := exec (TreeState.new None) empty_heap.

(** The time at which a segment is available to a caller at [now]. *)
Definition available (now : time) {A} (x : MaybePromise A) : time :=
  match x with Now _ => now | Later p => settled_at p end.

(** [collect_sub p] is not available before the producers below [p]
    have settled. *)
Definition sub_time_ok (now : time)
    (collect_sub : Payload -> MaybePromise AccumulatedContent) (p : Payload) : Prop :=
  latest_of_items latest_initial (out p) <= available now (collect_sub p).

(** Without followups, [collect_sub p] is available exactly when the
    producers below [p] have settled. *)
Definition sub_exact (now : time)
    (collect_sub : Payload -> MaybePromise AccumulatedContent) (p : Payload) : Prop :=
  without_followups p = true ->
  initial p = None ->
  available now (collect_sub p)
  = Nat.max now (latest_of_items latest_initial (out p)).

(** A text, then a child settling at 5, then a head child settling at 2. *)
Definition two_producers : Payload :=
  child (child (push (Payload_init 0 no_local None None) "x")
           (async_render 5 [Str "a"]) None)
        (async_render 2 [Str "b"]) (Some Head).




(** ** The account stores of the playground ([Stores.js])

    [localStorage] is read and written under the one key ["users"], and
    only through [JSON.parse] and [JSON.stringify]; the entry is kept as
    the array it encodes, [None] while the key is absent.  User names and
    passwords are strings.  The store [currentUser] holds [null] or an
    object with the one field [username]. *)

Record User : Type := { username : string; password : string }.

Record Stores : Type := {
  users_item : option (list User);
  currentUser : option string
}.

(** The module as loaded in a browser with nothing stored:
    [currentUser = writable(null)]. *)
Definition initial_stores : Stores :=
  {| users_item := None; currentUser := None |}.

(** [JSON.parse(localStorage.getItem("users") || "[]")] *)
Definition parse_users (s : Stores) : list User :=
  match users_item s with
  | Some users => users
  | None => []
  end.

Definition user_exists : string := "이미 존재하는 사용자입니다.".
Definition wrong_credentials : string := "아이디 또는 비밀번호가 잘못되었습니다.".

(** [signup(username, password)] *)
Definition signup (name pass : string) (s : Stores) : Completion unit * Stores :=
  let users := parse_users s in
  match find (fun u => username u =? name) users with
  | Some _ => (Throw user_exists, s)
  | None =>
      let users := users ++ [{| username := name; password := pass |}] in
      (Return tt, {| users_item := Some users; currentUser := Some name |})
  end.

(** [login(username, password)] *)
Definition login (name pass : string) (s : Stores) : Completion unit * Stores :=
  let users := parse_users s in
  let found := find (fun u => (username u =? name) && (password u =? pass)) users in
  match found with
  | None => (Throw wrong_credentials, s)
  | Some _ =>
      (Return tt, {| users_item := users_item s; currentUser := Some name |})
  end.

(** A call of one of the two exported functions. *)
Inductive Call : Type :=
| Signup (name pass : string)
| Login (name pass : string).

Definition call (c : Call) : Stores -> Completion unit * Stores :=
  match c with
  | Signup name pass => signup name pass
  | Login name pass => login name pass
  end.

(** The stores after the calls [cs], each caught if it throws. *)
Definition after_calls (cs : list Call) (s : Stores) : Stores :=
  fold_left (fun s c => snd (call c s)) cs s.

(** The names under which a user is stored. *)
Definition usernames (s : Stores) : list string :=
  map username (parse_users s).

(** * Properties *)

(** ** Checks on concrete inputs *)

(** [['a','b','c','d'].splice(1, 2, 'X')] removes [['b','c']]. *)
Example splice_middle :
  splice ["a"; "b"; "c"; "d"] 1 2 "X" = (["b"; "c"], ["a"; "X"; "d"]).
Proof. reflexivity. Qed.

(** A negative start counts from the end; the delete count is clamped. *)
Example splice_negative_start :
  splice ["a"; "b"; "c"; "d"] (-1) 5 "X" = (["d"], ["a"; "b"; "c"; "X"]).
Proof. reflexivity. Qed.

(** A negative delete count removes nothing. *)
Example splice_negative_count :
  splice ["a"; "b"; "c"; "d"] 2 (-1) "X" = ([], ["a"; "b"; "X"; "c"; "d"]).
Proof. reflexivity. Qed.

(** A start past the end inserts at the end. *)
Example splice_past_end :
  splice ["a"; "b"; "c"; "d"] 10 1 "X" = ([], ["a"; "b"; "c"; "d"; "X"]).
Proof. reflexivity. Qed.

(** The generator of a new tree state hands out "s1", then "s2". *)
Example uid_counts_up :
  run (state <- TreeState.new None ;;
       uid <- TreeState.uid state ;;
       a <- call_uid uid ;;
       b <- call_uid uid ;;
       ret (a, b)) empty_heap
  = ("s1", "s2").
Proof. reflexivity. Qed.

(** A copy of a tree state keeps the generator of the original. *)
Example uid_shared_with_copy :
  run (state <- TreeState.new (Some "p") ;;
       copy <- TreeState.copy state ;;
       uid <- TreeState.uid state ;;
       uid' <- TreeState.uid copy ;;
       a <- call_uid uid ;;
       b <- call_uid uid' ;;
       ret (a, b)) empty_heap
  = ("ps1", "ps2").
Proof. reflexivity. Qed.

(** [[0] < [0,1] < [1]] for the loop of the title setter. *)
Example compare_from_paths :
  TreeHeadState.compare_from 2 0 [0%Z; 1%Z] [0%Z] = TreeHeadState.Replace
  /\ TreeHeadState.compare_from 2 0 [0%Z] [0%Z; 1%Z] = TreeHeadState.Keep
  /\ TreeHeadState.compare_from 2 0 [1%Z] [0%Z; 1%Z] = TreeHeadState.Replace
  /\ TreeHeadState.compare_from 2 0 [0%Z; 1%Z] [0%Z; 1%Z] = TreeHeadState.Keep.
Proof. repeat split. Qed.

(** A body child under a head parent contributes to [body]. *)
Example collect_nested_channels :
  collect 0 nested_channels = Return {| head := "acd"; body := "b" |}.
Proof. reflexivity. Qed.

(** A child made without a type takes the type of its parent; its
    pending producer makes [collect] throw and [then] wait for it. *)
Example child_inherits_and_suspends :
  let parent := Payload_init 0 no_local None (Some Head) in
  let this := child (push parent "x") (async_render 3 [Str "y"]) None in
  map (fun item => match item with Str _ => None | Sub p => Some (type p) end) (out this)
  = [None; Some Head]
  /\ collect 0 this
     = Throw "Encountered an asynchronous component while rendering synchronously"
  /\ then_ 0 this (fun content => content)
     = {| settled_at := 3; resolved := {| head := "xy"; body := "" |} |}.
Proof. repeat split. Qed.

(** The transform of a compaction over a settled range is applied at
    once: the body "q" of the range becomes "Q" in place. *)
Example compact_transform :
  let fn := fun content =>
              Now {| head := head content;
                     body := if (body content =? "q")%string then "Q" else body content |} in
  collect 0 (compact 0 three_entries 1 (Some 3%Z) fn)
  = Return {| head := "xtz"; body := "Q" |}.
Proof. reflexivity. Qed.

(** ** Induction on payload trees *)

Section PayloadInduction.
Variable P : Payload -> Prop.
Hypothesis step :
  forall o ty i f g l,
    Forall (item_all P) o ->
    match i with
    | Some pr => Forall (item_all P) (resolved pr)
    | None => True
    end ->
    P (mkPayload o ty i f g l).

Fixpoint Payload_tree_ind (p : Payload) : P p :=
  let fix items_ind (items : list Item) : Forall (item_all P) items :=
    match items with
    | [] => Forall_nil _
    | Str s :: rest => Forall_cons (Str s) I (items_ind rest)
    | Sub q :: rest => Forall_cons (Sub q) (Payload_tree_ind q) (items_ind rest)
    end in
  match p with
  | mkPayload o ty i f g l =>
      step o ty i f g l (items_ind o)
        (match i return match i with
                        | Some pr => Forall (item_all P) (resolved pr)
                        | None => True
                        end
         with
         | Some pr => items_ind (resolved pr)
         | None => I
         end)
  end.
End PayloadInduction.

(** ** Strings and two-channel records *)

Lemma string_app_nil_r (s : string) : (s ++ "")%string = s.
Proof. induction s as [|c s IH]; simpl; [reflexivity | now rewrite IH]. Qed.

Lemma string_app_assoc (a b c : string) :
  ((a ++ b) ++ c)%string = (a ++ (b ++ c))%string.
Proof. induction a as [|x a IH]; simpl; [reflexivity | now rewrite IH]. Qed.

Lemma concat_content_empty_l c : concat_content empty_content c = c.
Proof. destruct c; reflexivity. Qed.

Lemma concat_content_empty_r c : concat_content c empty_content = c.
Proof.
  destruct c; unfold concat_content; simpl.
  now rewrite !string_app_nil_r.
Qed.

Lemma concat_content_assoc a b c :
  concat_content (concat_content a b) c = concat_content a (concat_content b c).
Proof.
  unfold concat_content; simpl. now rewrite !string_app_assoc.
Qed.

Lemma squash_from (l : list AccumulatedContent) (acc : AccumulatedContent) :
  fold_left
    (fun acc content =>
       {| head := head acc ++ head content; body := body acc ++ body content |})
    l acc
  = concat_content acc (squash_accumulated_content l).
Proof.
  unfold squash_accumulated_content.
  revert acc. induction l as [|c l IH]; intros acc; simpl.
  - now rewrite concat_content_empty_r.
  - rewrite IH. rewrite (IH (Build_AccumulatedContent _ _)).
    rewrite <- concat_content_assoc. f_equal.
Qed.

Lemma squash_app l1 l2 :
  squash_accumulated_content (l1 ++ l2)
  = concat_content (squash_accumulated_content l1) (squash_accumulated_content l2).
Proof.
  unfold squash_accumulated_content at 1 2.
  rewrite fold_left_app. now rewrite squash_from.
Qed.

Lemma squash_one c : squash_accumulated_content [c] = c.
Proof. destruct c; reflexivity. Qed.

Lemma channel_app ch l1 l2 :
  channel ch (l1 ++ l2) = (channel ch l1 ++ channel ch l2)%string.
Proof.
  induction l1 as [|[c s] l1 IH]; simpl; [reflexivity|].
  destruct (same_type c ch); [now rewrite IH, string_app_assoc | exact IH].
Qed.

Lemma document_order_app l1 l2 :
  document_order (l1 ++ l2)
  = concat_content (document_order l1) (document_order l2).
Proof.
  unfold document_order, concat_content; simpl. now rewrite !channel_app.
Qed.

Lemma document_order_cons ty s l :
  document_order ((ty, s) :: l)
  = concat_content (append_to empty_content ty s) (document_order l).
Proof. destruct ty; reflexivity. Qed.

Lemma append_to_concat c ty s :
  append_to c ty s = concat_content c (append_to empty_content ty s).
Proof.
  destruct c, ty; unfold append_to, concat_content; simpl;
    now rewrite ?string_app_nil_r.
Qed.

(** ** The suspending traversal *)

Lemma await_le_l {A} (p : Promise A) t : t <= await p t.
Proof. unfold await; lia. Qed.

Lemma await_le_r {A} (p : Promise A) t : settled_at p <= await p t.
Proof. unfold await; lia. Qed.

Lemma await_each_le {A} (fs : list (Promise A)) t : t <= await_each fs t.
Proof.
  unfold await_each. revert t.
  induction fs as [|f fs IH]; intros t; simpl; [lia|].
  specialize (IH (await f t)). pose proof (await_le_l f t). lia.
Qed.

Lemma out_at_settled t o ty pr f g l :
  settled_at pr <= t -> out_at t (mkPayload o ty (Some pr) f g l) = resolved pr.
Proof.
  intros H. simpl. apply Nat.leb_le in H. now rewrite H.
Qed.

Lemma collect_content_async_item_eq item content t :
  collect_content_async_item item content t
  = let t1 := match initial item with Some p => await p t | None => t end in
    let t2 := await_each (match followup item with Some fs => fs | None => [] end) t1 in
    collect_content_async_loop collect_content_async_item
      (out_at t2 item) (type item) content t2.
Proof. destruct item; reflexivity. Qed.

Lemma final_fragments_eq p :
  final_fragments p = fragments_of_items final_fragments (final_out p) (type p).
Proof. destruct p as [o ty [pr|] f g l]; reflexivity. Qed.

Lemma fragments_eq p :
  fragments p = fragments_of_items fragments (out p) (type p).
Proof. destruct p; reflexivity. Qed.

Section AsyncLoop.
Variable visit : Payload -> AccumulatedContent -> time -> AccumulatedContent * time.
Variable below : Payload -> list (PayloadType * string).

Lemma collect_content_async_loop_spec items :
  Forall (item_all (visit_ok visit below)) items ->
  forall ty c t,
    fst (collect_content_async_loop visit items ty c t)
    = concat_content c (document_order (fragments_of_items below items ty)).
Proof.
  induction 1 as [|i items Hi _ IH]; intros ty c t; simpl.
  - now rewrite concat_content_empty_r.
  - destruct i as [s|p]; simpl in *.
    + rewrite IH, document_order_cons, <- concat_content_assoc.
      now rewrite <- append_to_concat.
    + specialize (Hi c t). destruct (visit p c t) as [c' t']; simpl in Hi.
      rewrite IH, Hi, document_order_app. now rewrite concat_content_assoc.
Qed.
End AsyncLoop.

Lemma collect_content_async_item_spec item :
  forall c t,
    fst (collect_content_async_item item c t)
    = concat_content c (document_order (final_fragments item)).
Proof.
  induction item as [o ty i f g l IHo IHr] using Payload_tree_ind.
  intros c t. rewrite collect_content_async_item_eq, final_fragments_eq.
  cbv zeta. destruct i as [pr|].
  - rewrite out_at_settled.
    + now apply collect_content_async_loop_spec.
    + etransitivity; [apply (await_le_r pr t) | apply await_each_le].
  - now apply collect_content_async_loop_spec.
Qed.

Lemma collect_content_async_spec items ty c t :
  fst (collect_content_async items ty c t)
  = concat_content c (document_order (fragments_of_items final_fragments items ty)).
Proof.
  unfold collect_content_async. apply collect_content_async_loop_spec.
  induction items as [|[s|p] items IH]; constructor; simpl; auto.
  intros c' t'. apply collect_content_async_item_spec.
Qed.

Lemma resolved_async_call {A} now (f : time -> A * time) :
  resolved (async_call now f) = fst (f now).
Proof. unfold async_call. now destruct (f now). Qed.

(** ** The blocking traversal *)

Lemma not_truthy_empty c :
  truthy (head c) || truthy (body c) = false -> c = empty_content.
Proof.
  destruct c as [[|a h] [|b bd]]; simpl; intros H; try discriminate; reflexivity.
Qed.

Lemma flush_gathered st : gathered (flush st) = gathered st.
Proof.
  unfold flush, gathered.
  destruct (truthy (head (content st)) || truthy (body (content st))); [|reflexivity].
  simpl. rewrite map_app, squash_app. simpl. rewrite squash_one.
  now rewrite concat_content_empty_r.
Qed.

Lemma flush_content st : content (flush st) = empty_content.
Proof.
  unfold flush.
  destruct (truthy (head (content st)) || truthy (body (content st))) eqn:E;
    [reflexivity | now apply not_truthy_empty].
Qed.

Lemma flush_has_async st : has_async (flush st) = has_async st.
Proof.
  unfold flush.
  now destruct (truthy (head (content st)) || truthy (body (content st))).
Qed.

Lemma flush_consistent st : consistent st -> consistent (flush st).
Proof.
  unfold consistent, flush. intros H.
  destruct (truthy (head (content st)) || truthy (body (content st))); [|exact H].
  simpl. rewrite existsb_app. simpl. now rewrite !orb_false_r.
Qed.

Section BlockingLoop.
Variable now : time.
Variable collect_sub : Payload -> MaybePromise AccumulatedContent.

Lemma collect_content_loop_spec items :
  Forall (item_all (sub_ok collect_sub)) items ->
  forall ty st,
    let st' := collect_content_loop now collect_sub items ty st in
    gathered st'
    = concat_content (gathered st)
        (document_order (fragments_of_items final_fragments items ty))
    /\ has_async st' = has_async st || exists_items pending_initial items
    /\ (consistent st -> consistent st').
Proof.
  induction 1 as [|i items Hi _ IH]; intros ty st; simpl.
  - rewrite concat_content_empty_r, orb_false_r. auto.
  - destruct i as [s|p]; simpl in Hi.
    + match goal with |- context [collect_content_loop _ _ _ _ ?s0] =>
        destruct (IH ty s0) as (G & A & C) end.
      rewrite G, A. simpl. repeat split.
      * unfold gathered; simpl.
        rewrite document_order_cons, (append_to_concat (content st)).
        now rewrite !concat_content_assoc.
      * intros K. apply C. exact K.
    + match goal with |- context [collect_content_loop _ _ _ _ ?s0] =>
        destruct (IH ty s0) as (G & A & C) end.
      rewrite G, A. clear G A IH.
      destruct p as [o pty [pr|] f g l]; simpl in *.
      * repeat split.
        -- unfold gathered at 1; simpl.
           rewrite map_app, squash_app. simpl. rewrite squash_one.
           rewrite resolved_async_call, collect_content_async_spec. simpl.
           rewrite app_nil_r, concat_content_empty_l.
           rewrite document_order_app, flush_content.
           rewrite concat_content_empty_r.
           rewrite <- (flush_gathered st). unfold gathered.
           rewrite flush_content, concat_content_empty_r.
           now rewrite concat_content_assoc.
        -- now rewrite orb_true_r.
        -- intros K. apply C. unfold consistent; simpl.
           rewrite existsb_app; simpl. now rewrite !orb_true_r.
      * destruct Hi as [Hv Hp]. repeat split.
        -- unfold gathered at 1; simpl.
           rewrite map_app, squash_app. simpl. rewrite squash_one, Hv.
           rewrite document_order_app, flush_content.
           rewrite concat_content_empty_r.
           rewrite <- (flush_gathered st). unfold gathered.
           rewrite flush_content, concat_content_empty_r.
           now rewrite concat_content_assoc.
        -- simpl out in Hp. rewrite <- Hp, flush_has_async.
           destruct (instanceof_Promise (collect_sub _)), (has_async st);
             reflexivity.
        -- intros K. apply C. apply flush_consistent in K.
           unfold consistent in *; simpl.
           rewrite existsb_app; simpl. rewrite orb_false_r, <- K.
           destruct (instanceof_Promise (collect_sub _)), (has_async (flush st));
             reflexivity.
Qed.

Lemma as_content_settled segs :
  existsb instanceof_Promise segs = false ->
  map as_content segs = map settled_value segs.
Proof.
  induction segs as [|[c|p] segs IH]; simpl; intros H;
    [reflexivity | now rewrite IH | discriminate].
Qed.

Lemma collect_content_return_spec st :
  consistent st ->
  settled_value (collect_content_return now st) = gathered st
  /\ instanceof_Promise (collect_content_return now st) = has_async st.
Proof.
  intros K. apply flush_consistent in K.
  rewrite <- (flush_gathered st), <- (flush_has_async st).
  unfold collect_content_return, gathered.
  rewrite (flush_content st), concat_content_empty_r.
  destruct (has_async (flush st)) eqn:E; simpl; split; try reflexivity.
  unfold consistent in K. rewrite E in K.
  now rewrite as_content_settled.
Qed.
End BlockingLoop.

Lemma start_consistent c : consistent (start c).
Proof. reflexivity. Qed.

Lemma collect_content_sub_eq now item :
  collect_content_sub now item
  = collect_content now (out item) (type item) empty_content.
Proof. destruct item; reflexivity. Qed.

Lemma Forall_item_all (P : Payload -> Prop) items :
  (forall p, P p) -> Forall (item_all P) items.
Proof.
  intros H. induction items as [|[s|p] items IH]; constructor; simpl; auto.
Qed.

Lemma collect_content_of_loop now collect_sub items ty c :
  Forall (item_all (sub_ok collect_sub)) items ->
  let r := collect_content_return now
             (collect_content_loop now collect_sub items ty (start c)) in
  settled_value r
  = concat_content c (document_order (fragments_of_items final_fragments items ty))
  /\ instanceof_Promise r = exists_items pending_initial items.
Proof.
  intros H r.
  destruct (collect_content_loop_spec now collect_sub items H ty (start c))
    as (G & A & C).
  destruct (collect_content_return_spec now _ (C (start_consistent c))) as [V I].
  subst r. rewrite V, I, G, A. split; [|reflexivity].
  unfold gathered; simpl. now rewrite concat_content_empty_l.
Qed.

Lemma collect_content_sub_ok now p : sub_ok (collect_content_sub now) p.
Proof.
  induction p as [o ty i f g l IHo _] using Payload_tree_ind.
  unfold sub_ok. simpl out; simpl type.
  change (collect_content_sub now (mkPayload o ty i f g l))
    with (collect_content_return now
            (collect_content_loop now (collect_content_sub now) o ty
               (start empty_content))).
  destruct (collect_content_of_loop now _ o ty empty_content IHo) as [V I].
  rewrite V, I, concat_content_empty_l. auto.
Qed.

(** What [#collect_content] holds once settled, and whether it is a
    promise. *)
Lemma collect_content_spec now items ty c :
  settled_value (collect_content now items ty c)
  = concat_content c (document_order (fragments_of_items final_fragments items ty))
  /\ instanceof_Promise (collect_content now items ty c)
     = exists_items pending_initial items.
Proof.
  apply collect_content_of_loop, Forall_item_all, collect_content_sub_ok.
Qed.

(** [collect], in one equation: it throws exactly when some payload
    below has [promises.initial] set, and otherwise returns the document
    order of the entries. *)
Lemma collect_spec now this :
  collect now this
  = if exists_items pending_initial (out this) then
      Throw "Encountered an asynchronous component while rendering synchronously"
    else
      Return (document_order
                (fragments_of_items final_fragments (out this) (type this))).
Proof.
  unfold collect.
  destruct (collect_content_spec now (out this) (type this) empty_content)
    as [V I].
  rewrite concat_content_empty_l in V. rewrite <- I.
  destruct (collect_content now (out this) (type this) empty_content);
    simpl in *; now rewrite ?V.
Qed.

Lemma settled_no_pending_initial p :
  settled p = true -> pending_initial p = false.
Proof.
  induction p as [o ty i f g l IHo _] using Payload_tree_ind.
  simpl. unfold no_promises; simpl.
  destruct i as [pr|]; [discriminate|].
  intros H. apply andb_true_iff in H. destruct H as [_ H].
  induction IHo as [|[s|q] items Hq _ IH]; simpl in *; auto.
  apply andb_true_iff in H. destruct H as [Hs H].
  now rewrite Hq, IH.
Qed.

Lemma settled_items_no_pending_initial items :
  forall_items settled items = true -> exists_items pending_initial items = false.
Proof.
  induction items as [|[s|q] items IH]; simpl; auto.
  intros H. apply andb_true_iff in H. destruct H as [Hs H].
  now rewrite settled_no_pending_initial, IH.
Qed.

Lemma settled_final_fragments p :
  settled p = true -> final_fragments p = fragments p.
Proof.
  induction p as [o ty i f g l IHo _] using Payload_tree_ind.
  simpl. unfold no_promises; simpl.
  destruct i as [pr|]; [discriminate|].
  intros H. apply andb_true_iff in H. destruct H as [_ H].
  induction IHo as [|[s|q] items Hq _ IH]; simpl in *; auto.
  - now rewrite IH.
  - apply andb_true_iff in H. destruct H as [Hs H].
    now rewrite Hq, IH.
Qed.

(** ** Claims about collection *)

(** C1.  On a payload tree in which no node has pending work, [collect]
    returns the two-channel record whose channels are the depth-first,
    left-to-right concatenation of the pushed fragments, each fragment
    in the channel of the node that owns it. *)
Theorem collect_synchronous_tree (now : time) (this : Payload) :
  settled this = true ->
  collect now this = Return (document_order (fragments this)).
Proof.
  intros H. rewrite collect_spec.
  pose proof (settled_no_pending_initial this H) as Hp.
  pose proof (settled_final_fragments this H) as Hf.
  destruct this as [o ty [pr|] f g l]; [discriminate|].
  simpl in *. now rewrite Hp, Hf.
Qed.

Lemma collect_synchronous_tree_witness :
  settled nested_channels = true
  /\ collect 0 nested_channels = Return {| head := "acd"; body := "b" |}.
Proof.
  split; [reflexivity|].
  exact (collect_synchronous_tree 0 nested_channels eq_refl).
Defined.

(** Awaiting a payload resolves with the document order of the
    fragments its entries hold once every producer has settled, whatever
    the times at which the producers settle; for two async siblings A
    then B the content of A comes before the content of B, also when B
    settles first.  What a compaction followup pushes into its
    placeholder later is not among these entries. *)
Lemma then_document_order :
  (forall (now : time) (this : Payload),
      resolved (then_ now this (fun content => content))
      = document_order (final_fragments this))
  /\ (forall (now settles_a settles_b : time) (a b : string) (ty : PayloadType),
         let A := mkPayload [] ty
                    (Some {| settled_at := settles_a; resolved := [Str a] |})
                    None 0 no_local in
         let B := mkPayload [] ty
                    (Some {| settled_at := settles_b; resolved := [Str b] |})
                    None 0 no_local in
         let root := mkPayload [Sub A; Sub B] ty None None 0 no_local in
         resolved (then_ now root (fun content => content))
         = append_to (append_to empty_content ty a) ty b).
Proof.
  assert (G : forall now this,
             resolved (then_ now this (fun content => content))
             = document_order (final_fragments this)).
  { intros now this. unfold then_.
    destruct (collect_content_spec now [Sub this] (type this) empty_content)
      as [V _].
    simpl in V. rewrite app_nil_r, concat_content_empty_l in V.
    destruct (collect_content now [Sub this] (type this) empty_content);
      simpl in *; exact V. }
  split; [exact G|].
  intros now ta tb a b ty A B root. rewrite G.
  destruct ty; simpl; unfold document_order; simpl;
    now rewrite ?string_app_nil_r.
Qed.

(** ** Compaction *)

Lemma splice_parts {A} (array : list A) (start deleteCount : Z) (item : A) :
  exists before after,
    array = before ++ fst (splice array start deleteCount item) ++ after
    /\ snd (splice array start deleteCount item) = before ++ item :: after.
Proof.
  unfold splice. cbv zeta. simpl fst. simpl snd.
  match goal with |- context [firstn ?n array ++ item :: skipn ?m (skipn ?n array)] =>
    exists (firstn n array), (skipn m (skipn n array)) end.
  split; [|reflexivity].
  now rewrite !firstn_skipn.
Qed.

(** For [0 <= start <= end <= length], [splice(start, end - start, item)]
    takes out the half-open range and puts [item] where it began. *)
Lemma splice_in_range {A} (array : list A) (start end_ : nat) (item : A) :
  start <= end_ <= length array ->
  splice array (Z.of_nat start) (Z.of_nat end_ - Z.of_nat start) item
  = (firstn (end_ - start) (skipn start array),
     firstn start array ++ item :: skipn end_ array).
Proof.
  intros [H1 H2]. unfold splice. cbv zeta.
  replace (Z.of_nat start <? 0)%Z with false by (symmetry; apply Z.ltb_ge; lia).
  rewrite (Z.min_l (Z.of_nat start)) by lia.
  rewrite (Z.max_l _ 0) by lia.
  rewrite Z.min_l by lia.
  rewrite Nat2Z.id.
  replace (Z.to_nat (Z.of_nat end_ - Z.of_nat start)) with (end_ - start) by lia.
  rewrite skipn_skipn.
  now replace (end_ - start + start) with end_ by lia.
Qed.

Lemma splice_removed_irrelevant {A} (array : list A) start deleteCount (x y : A) :
  fst (splice array start deleteCount x) = fst (splice array start deleteCount y).
Proof. reflexivity. Qed.

Lemma exists_items_app below l1 l2 :
  exists_items below (l1 ++ l2) = exists_items below l1 || exists_items below l2.
Proof.
  induction l1 as [|[s|p] l1 IH]; simpl; auto.
  now rewrite IH, orb_assoc.
Qed.

Lemma fragments_of_items_app below l1 l2 ty :
  fragments_of_items below (l1 ++ l2) ty
  = fragments_of_items below l1 ty ++ fragments_of_items below l2 ty.
Proof.
  induction l1 as [|[s|p] l1 IH]; simpl; auto.
  - now rewrite IH.
  - now rewrite IH, app_assoc.
Qed.

(** The placeholder once a settled content was pushed into it: one leaf
    per non-empty channel, nothing pending, and the same content. *)
Lemma push_accumulated_content_leaves tree c :
  out (push_accumulated_content tree (Now c))
  = out tree
    ++ (if truthy (head c) then
          [Sub (mkPayload [Str (head c)] Head None None (global tree)
                  {| select_value := select_value (local tree) |})]
        else [])
    ++ (if truthy (body c) then
          [Sub (mkPayload [Str (body c)] Body None None (global tree)
                  {| select_value := select_value (local tree) |})]
        else []).
Proof.
  destruct tree as [o ty i f g l], c as [h b].
  unfold push_accumulated_content; simpl.
  destruct (truthy h), (truthy b); simpl;
    rewrite ?app_nil_r, <- ?app_assoc; reflexivity.
Qed.

Lemma placeholder_content g l parent c :
  let child := push_accumulated_content (Payload_init g l parent None) (Now c) in
  pending_initial child = false
  /\ initial child = None
  /\ document_order (final_fragments child) = c.
Proof.
  destruct c as [[|a h] [|b bd]]; cbv zeta;
    unfold push_accumulated_content, document_order; simpl;
    rewrite ?string_app_nil_r; auto.
Qed.

(** [compact] on a range without pending producers: the transform is
    applied at once and its result pushed into the placeholder. *)
Lemma compact_settled_range now this start end_ fn :
  exists_items pending_initial (compacted_range this start end_) = false ->
  exists before after,
    out this = before ++ compacted_range this start end_ ++ after
    /\ compact now this start end_ fn
       = set_out this
           (before
            ++ Sub (push_accumulated_content
                      (Payload_init (global this) (local this) (Some this) None)
                      (fn (document_order
                             (fragments_of_items final_fragments
                                (compacted_range this start end_) (type this)))))
            :: after).
Proof.
  intros Hp. unfold compacted_range in *. unfold compact.
  set (e := match end_ with Some e => e | None => Z.of_nat (length (out this)) end) in *.
  cbv zeta.
  set (child := Payload_init (global this) (local this) (Some this) None).
  rewrite (splice_removed_irrelevant (out this) start (e - start) (Sub this) (Sub child)) in *.
  destruct (collect_content_spec now
              (fst (splice (out this) start (e - start) (Sub child)))
              (type this) empty_content) as [V I].
  rewrite Hp in I. rewrite concat_content_empty_l in V.
  destruct (collect_content now _ (type this) empty_content) as [c|pr];
    [|discriminate].
  simpl in V. subst c.
  match goal with |- context [push_accumulated_content child ?x] =>
    destruct (splice_parts (out this) start (e - start)
                (Sub (push_accumulated_content child x))) as (before & after & E1 & E2)
  end.
  exists before, after. split.
  - exact E1.
  - now rewrite E2.
Qed.

(** C6.  Compacting an already settled range with the identity
    transform leaves what [collect] gives for the node unchanged. *)
Theorem compact_identity_roundtrip (now : time) (this : Payload)
    (start : Z) (end_ : option Z) :
  forall_items settled (compacted_range this start end_) = true ->
  collect now (compact now this start end_ (fun content => Now content))
  = collect now this.
Proof.
  intros H. apply settled_items_no_pending_initial in H.
  destruct (compact_settled_range now this start end_ (fun c => Now c) H)
    as (before & after & E1 & E2).
  rewrite E2, !collect_spec. clear E2.
  destruct this as [o ty i f g l]. simpl out in *. simpl type in *.
  unfold set_out; simpl out; simpl type. simpl global; simpl local.
  set (range := compacted_range _ start end_) in *.
  set (parent := Some (mkPayload o ty i f g l)).
  destruct (placeholder_content g l parent
              (document_order (fragments_of_items final_fragments range ty)))
    as (P1 & _ & P3).
  cbv zeta in P1, P3.
  rewrite E1.
  rewrite !exists_items_app, !fragments_of_items_app. simpl.
  rewrite P1, H. simpl.
  rewrite !document_order_app, P3. reflexivity.
Qed.

Lemma compact_identity_roundtrip_witness :
  forall_items settled (compacted_range three_entries 1 (Some 3%Z)) = true
  /\ collect 0 (compact 0 three_entries 1 (Some 3%Z) (fun content => Now content))
     = collect 0 three_entries.
Proof.
  split; [reflexivity|].
  exact (compact_identity_roundtrip 0 three_entries 1 (Some 3%Z) eq_refl).
Defined.

(** [compact] on a range with a pending producer: the placeholder goes
    in empty and the work is queued on [this.promises.followup]; the
    queued promise resolves with the placeholder holding one leaf per
    non-empty channel of the transformed content. *)
Lemma compact_pending_range now this start end_ fn :
  exists_items pending_initial (compacted_range this start end_) = true ->
  exists before after content,
    out this = before ++ compacted_range this start end_ ++ after
    /\ resolved content
       = document_order
           (fragments_of_items final_fragments
              (compacted_range this start end_) (type this))
    /\ compact now this start end_ fn
       = set_followup
           (set_out this
              (before
               ++ Sub (Payload_init (global this) (local this) (Some this) None)
               :: after))
           (Some (match followup this with Some fs => fs | None => [] end
                  ++ [Promise_then (Promise_then content fn)
                        (fun transformed_content =>
                           Now (push_accumulated_content
                                  (Payload_init (global this) (local this)
                                     (Some this) None)
                                  (Now transformed_content)))])).
Proof.
  intros Hp. unfold compacted_range in *. unfold compact.
  set (e := match end_ with Some e => e | None => Z.of_nat (length (out this)) end) in *.
  cbv zeta.
  set (child := Payload_init (global this) (local this) (Some this) None).
  rewrite (splice_removed_irrelevant (out this) start (e - start) (Sub this) (Sub child)) in *.
  destruct (collect_content_spec now
              (fst (splice (out this) start (e - start) (Sub child)))
              (type this) empty_content) as [V I].
  rewrite Hp in I. rewrite concat_content_empty_l in V.
  destruct (collect_content now _ (type this) empty_content) as [c|pr];
    [discriminate|].
  simpl in V.
  destruct (splice_parts (out this) start (e - start) (Sub child))
    as (before & after & E1 & E2).
  exists before, after, pr. repeat split; [exact E1 | exact V |].
  rewrite E2. destruct this; reflexivity.
Qed.

(** C5.  A range that is settled and a transform that returns a promise:
    [compact] applies the transform at once, pushes nothing into the
    placeholder and queues nothing on [promises.followup], so the range
    "ab" is lost; the claim asks for the sequence to be deferred as a
    followup that later pushes the transformed content. *)
Theorem compact_async_transform_not_deferred :
  let this := push (Payload_init 0 no_local None None) "ab" in
  let fn := fun content => Later {| settled_at := 1; resolved := content |} in
  let compacted := compact 0 this 0 (Some 1%Z) fn in
  collect 0 this = Return {| head := ""; body := "ab" |}
  /\ out compacted = [Sub (Payload_init 0 no_local (Some this) None)]
  /\ followup compacted = None
  /\ collect 0 compacted = Return {| head := ""; body := "" |}.
Proof. repeat split. Qed.

(** C2.  A root with two children whose producers are pending, A until
    time 5 and B until time 2: awaiting it resolves with "ab".  After
    [compact] over A with the identity transform the root holds the empty
    placeholder, B, and a followup that settles at time 5 carrying "a";
    awaiting the root then resolves at time 2 with "b": the followup is
    not awaited and the content of A is missing from the result. *)
Theorem then_skips_pending_followup :
  let root :=
    child (child (Payload_init 0 no_local None None) (async_render 5 [Str "a"]) None)
      (async_render 2 [Str "b"]) None in
  let compacted := compact 0 root 0 (Some 1%Z) (fun content => Now content) in
  then_ 0 root (fun content => content)
  = {| settled_at := 5; resolved := {| head := ""; body := "ab" |} |}
  /\ then_ 0 compacted (fun content => content)
     = {| settled_at := 2; resolved := {| head := ""; body := "b" |} |}
  /\ option_map (map settled_at) (followup compacted) = Some [5]
  /\ option_map (map (fun f => collect 5 (resolved f))) (followup compacted)
     = Some [Return {| head := ""; body := "a" |}].
Proof. repeat split. Qed.

(** C3.  A root whose only entry is a child with a producer pending
    until time 5: [collect] throws.  After [compact] over that child the
    root holds an empty placeholder and a followup that settles at time
    5, and [collect] at time 0 returns the empty record instead of
    throwing: the content "a" is omitted without an error. *)
Theorem collect_ignores_pending_followup :
  let root := child (Payload_init 0 no_local None None)
                (async_render 5 [Str "a"]) None in
  let compacted := compact 0 root 0 None (fun content => Now content) in
  collect 0 root
  = Throw "Encountered an asynchronous component while rendering synchronously"
  /\ resolved (then_ 0 root (fun content => content)) = {| head := ""; body := "a" |}
  /\ out compacted = [Sub (Payload_init 0 no_local (Some root) None)]
  /\ option_map (map settled_at) (followup compacted) = Some [5]
  /\ option_map (map (fun f => collect 5 (resolved f))) (followup compacted)
     = Some [Return {| head := ""; body := "a" |}]
  /\ collect 0 compacted = Return {| head := ""; body := "" |}.
Proof. repeat split. Qed.

(** The part of C3 the code does enforce: a payload anywhere below the
    collected one with [promises.initial] set makes [collect] throw. *)
Lemma collect_throws_on_pending_initial now this :
  exists_items pending_initial (out this) = true ->
  collect now this
  = Throw "Encountered an asynchronous component while rendering synchronously".
Proof. intros H. now rewrite collect_spec, H. Qed.

(** What that defect amounts to in general: once a range with a pending
    producer has been compacted, [collect] and [then] answer as if the
    range had been deleted from the array. *)
Lemma collect_after_compact_pending_range now this start end_ fn :
  exists_items pending_initial (compacted_range this start end_) = true ->
  exists before after,
    out this = before ++ compacted_range this start end_ ++ after
    /\ collect now (compact now this start end_ fn)
       = collect now (set_out this (before ++ after))
    /\ (initial this = None ->
        forall t,
          resolved (then_ t (compact now this start end_ fn) (fun content => content))
          = resolved (then_ t (set_out this (before ++ after)) (fun content => content))).
Proof.
  intros H.
  destruct (compact_pending_range now this start end_ fn H)
    as (before & after & content & E1 & _ & E2).
  exists before, after. split; [exact E1|]. rewrite E2. clear E1 E2 H.
  destruct this as [o ty i f g l].
  destruct (then_document_order) as [T _].
  split.
  - rewrite !collect_spec. unfold set_followup, set_out.
    cbn [out type initial followup global local].
    rewrite !exists_items_app, !fragments_of_items_app. reflexivity.
  - cbn [initial]. intros -> t. rewrite !T. unfold set_followup, set_out.
    cbn [out type initial followup global local].
    rewrite !final_fragments_eq. cbn [final_out type].
    rewrite !fragments_of_items_app. reflexivity.
Qed.

(** ** Subsume *)

Lemma subsume_eq this other :
  subsume this other
  = (TreeState.subsume (global this) (global other) ;;
     out' <- subsume_map (fun item => subsume item item) (out other) ;;
     ret (mkPayload out' (type other) (initial other) (followup other)
            (global this) (local other))).
Proof. destruct other; reflexivity. Qed.

Lemma subsume_map_id (f : Payload -> M Payload) items :
  Forall (item_all (fun p => forall h, fst (f p h) = p)) items ->
  forall h, fst (subsume_map f items h) = items.
Proof.
  induction 1 as [|i items Hi _ IH]; intros h; simpl; [reflexivity|].
  destruct i as [s|p]; simpl in *; unfold bind, ret.
  - specialize (IH h). destruct (subsume_map f items h) as [r h']; simpl in *.
    now subst.
  - specialize (Hi h). destruct (f p h) as [p' h1]; simpl in Hi. subst p'.
    specialize (IH h1). destruct (subsume_map f items h1) as [r h']; simpl in *.
    now subst.
Qed.

Lemma subsume_self item : forall h, fst (subsume item item h) = item.
Proof.
  induction item as [o ty i f g l IHo _] using Payload_tree_ind.
  intros h. rewrite subsume_eq. unfold bind, ret.
  cbn [global out type initial followup local].
  destruct (TreeState.subsume g g h) as [u h1].
  pose proof (subsume_map_id (fun item => subsume item item) o IHo h1) as E.
  destruct (subsume_map _ o h1) as [o' h2]. cbn [fst] in *. now subst.
Qed.

(** C9.  After [a.subsume(b)], [a] holds the entries, promises, type
    and local state of [b], and [a.collect()] gives what [b.collect()]
    gives. *)
Theorem subsume_collect (now : time) (a b : Payload) (h : Heap) :
  let a' := run (subsume a b) h in
  collect now a' = collect now b
  /\ out a' = out b
  /\ type a' = type b
  /\ initial a' = initial b
  /\ followup a' = followup b
  /\ local a' = local b
  /\ global a' = global a.
Proof.
  assert (E : run (subsume a b) h
              = mkPayload (out b) (type b) (initial b) (followup b)
                  (global a) (local b)).
  { unfold run. rewrite subsume_eq. unfold bind, ret.
    destruct (TreeState.subsume (global a) (global b) h) as [u h1].
    pose proof (subsume_map_id (fun item => subsume item item) (out b)
                  (Forall_item_all _ _ subsume_self) h1) as E.
    destruct (subsume_map _ (out b) h1) as [o' h2]. cbn [fst] in *. now subst. }
  cbv zeta. rewrite E. unfold collect. simpl. repeat split.
Qed.

(** ** Construction *)

Lemma out_fold_push fragments this :
  out (fold_left push fragments this) = out this ++ map Str fragments
  /\ type (fold_left push fragments this) = type this.
Proof.
  revert this. induction fragments as [|s fragments IH]; intros this; simpl.
  - now rewrite app_nil_r.
  - destruct (IH (push this s)) as [E1 E2]. rewrite E1, E2.
    destruct this; simpl. now rewrite <- app_assoc.
Qed.

Lemma fragments_of_strings below fragments ty :
  fragments_of_items below (map Str fragments) ty
  = map (fun s => (ty, s)) fragments.
Proof. induction fragments as [|s l IH]; simpl; [reflexivity | now rewrite IH]. Qed.

Lemma exists_items_strings below fragments :
  exists_items below (map Str fragments) = false.
Proof. induction fragments; simpl; auto. Qed.

Lemma channel_same ty fragments :
  channel ty (map (fun s => (ty, s)) fragments) = fold_right append "" fragments.
Proof.
  induction fragments as [|s l IH]; simpl; [reflexivity|].
  rewrite IH. now destruct ty.
Qed.

Lemma channel_other ty ch fragments :
  same_type ty ch = false ->
  channel ch (map (fun s => (ty, s)) fragments) = "".
Proof.
  intros H. induction fragments as [|s l IH]; simpl; [reflexivity|].
  now rewrite H.
Qed.

(** C10.  Without a type and without a parent a payload gets 'body',
    so whatever is pushed to such a root comes out in [body]; without a
    type and with a parent it gets the parent's type. *)
Theorem Payload_default_type :
  (forall global local h,
      type (run (new_Payload global local None None) h) = Body)
  /\ (forall global local h now fragments,
         collect now
           (fold_left push fragments (run (new_Payload global local None None) h))
         = Return {| head := ""; body := fold_right append "" fragments |})
  /\ (forall global local parent h,
         type (run (new_Payload global local (Some parent) None) h) = type parent).
Proof.
  assert (T : forall global local parent ty h,
             run (new_Payload global local parent ty) h
             = Payload_init
                 (match global with
                  | Some g => g
                  | None => run (TreeState.new None) h
                  end)
                 (match local with
                  | Some l => l
                  | None => {| select_value := None |}
                  end) parent ty).
  { intros [g|] l parent ty h; unfold run, new_Payload, bind, ret;
      [reflexivity|].
    now destruct (TreeState.new None h). }
  split; [|split].
  - intros. now rewrite T.
  - intros global local h now fragments. rewrite collect_spec.
    destruct (out_fold_push fragments
                (run (new_Payload global local None None) h)) as [E1 E2].
    rewrite E1, E2, T. simpl.
    rewrite exists_items_strings, fragments_of_strings.
    unfold document_order.
    now rewrite channel_same, channel_other.
  - intros global local [o pty i f g l] h. now rewrite T.
Qed.

(** ** The title slot *)

(** ** Running heap computations on an arbitrary heap *)

(** One round of call-by-value evaluation of the heap operations. *)
Ltac heap_step :=
  cbv beta iota zeta delta
    [run exec bind ret state_title set_title_on_copy read_title
     count_hash add_two
     TreeState.copy TreeState.head TreeState.css TreeState.new TreeState.subsume
     TreeHeadState.set_title TreeHeadState.copy TreeHeadState.title
     TreeHeadState.new TreeHeadState.subsume TreeHeadState.compare_from
     Set_from Set_add props_id_generator
     get_tree_state put_tree_state new_tree_state
     get_head_state put_head_state new_head_state
     get_title put_title new_title get_css new_css
     get_set put_set new_set new_closure get_closure put_closure alloc write
     fst snd titles sets csses closures head_states tree_states next cell
     head_css head_uid head_title state_uid state_css state_head
     with_path with_value path value hash code
     Nat.max length nth_error existsb app orb filter].

(** Comparisons of addresses that differ by a constant. *)
Ltac decide_eqb :=
  repeat match goal with
         | |- context [Nat.eqb ?a ?b] =>
             first
               [ replace (Nat.eqb a b) with true
                   by (symmetry; apply Nat.eqb_eq; lia)
               | replace (Nat.eqb a b) with false
                   by (symmetry; apply Nat.eqb_neq; lia) ]
         end.

Ltac heap_eval := repeat (heap_step; progress decide_eqb); heap_step.

Lemma compare_from_shift n i x contender_path y current_path :
  TreeHeadState.compare_from n (S i) (x :: contender_path) (y :: current_path)
  = TreeHeadState.compare_from n i contender_path current_path.
Proof.
  revert i. induction n as [|n IH]; intros i; simpl; [reflexivity|].
  destruct (nth_error contender_path i); [|reflexivity].
  destruct (nth_error current_path i); [|reflexivity].
  now rewrite IH.
Qed.

Lemma compare_from_later_than contender_path current_path n :
  Nat.max (length contender_path) (length current_path) <= n ->
  TreeHeadState.compare_from n 0 contender_path current_path
  = if later_than contender_path current_path
    then TreeHeadState.Replace else TreeHeadState.Keep.
Proof.
  revert current_path n.
  induction contender_path as [|c cs IH]; intros current_path n Hn.
  - destruct n; reflexivity.
  - cbn [length] in Hn. destruct n as [|n]; [lia|].
    destruct current_path as [|s ss]; simpl; [reflexivity|].
    destruct (c >? s)%Z; [reflexivity|].
    destruct (c <? s)%Z; [reflexivity|].
    rewrite compare_from_shift. apply IH. cbn [length] in Hn. lia.
Qed.

Lemma set_title_spec this value h :
  run (TreeHeadState.set_title this value ;; read_title this) h
  = if later_than (path value) (path (run (read_title this) h))
    then value else run (read_title this) h.
Proof.
  destruct value as [vp vv].
  unfold run, read_title, TreeHeadState.set_title, TreeHeadState.title,
    get_head_state, get_title, put_title, bind, ret.
  cbn [fst snd path].
  rewrite compare_from_later_than by reflexivity.
  destruct (later_than vp _); cbn [fst snd titles head_states cell write];
    [|reflexivity].
  now rewrite !Nat.eqb_refl.
Qed.

Lemma run_bind {A B} (c : M A) (k : A -> M B) h :
  run (bind c k) h = run (k (run c h)) (exec c h).
Proof. unfold run, exec, bind. now destruct (c h). Qed.

Lemma exec_bind {A B} (c : M A) (k : A -> M B) h :
  exec (bind c k) h = exec (k (run c h)) (exec c h).
Proof. unfold run, exec, bind. now destruct (c h). Qed.

Lemma read_title_after_set_title this value h :
  run (read_title this) (exec (TreeHeadState.set_title this value) h)
  = assign (run (read_title this) h) value.
Proof.
  pose proof (set_title_spec this value h) as E.
  now rewrite run_bind in E.
Qed.

Lemma read_title_after_set_titles this candidates h :
  run (read_title this) (exec (set_titles this candidates) h)
  = fold_left assign candidates (run (read_title this) h).
Proof.
  revert h. induction candidates as [|v l IH]; intros h; simpl; [reflexivity|].
  now rewrite exec_bind, IH, read_title_after_set_title.
Qed.

Lemma read_title_new uid h :
  run (read_title (run (TreeHeadState.new uid) h)) (exec (TreeHeadState.new uid) h)
  = {| path := []; value := "" |}.
Proof.
  destruct h as [[n1 c1] [n2 c2] [n3 c3] [n4 c4] [n5 c5] [n6 c6]].
  heap_eval. reflexivity.
Qed.

Lemma permutations_of_three {A} (a b c : A) l :
  Permutation [a; b; c] l ->
  l = [a; b; c] \/ l = [a; c; b] \/ l = [b; a; c]
  \/ l = [b; c; a] \/ l = [c; a; b] \/ l = [c; b; a].
Proof.
  intros P. pose proof (Permutation_length P) as L.
  destruct l as [|x [|y [|z [|w l]]]]; try discriminate L. clear L.
  assert (I : In a [x; y; z]) by (eapply Permutation_in; [exact P | now left]).
  destruct I as [<-|[<-|[<-|[]]]].
  - apply Permutation_cons_inv in P.
    apply Permutation_length_2_inv in P. destruct P as [E|E]; inversion E; auto.
  - apply (Permutation_cons_app_inv [x] [z]) in P.
    apply Permutation_length_2_inv in P.
    destruct P as [E|E]; inversion E; subst; auto 10.
  - apply (Permutation_cons_app_inv [x; y] []) in P.
    apply Permutation_length_2_inv in P.
    destruct P as [E|E]; inversion E; subst; auto 10.
Qed.

(** C4.  Assigning to [title] replaces the stored record exactly when
    the path of the candidate is lexicographically later than the stored
    path (a candidate that runs out first, a smaller segment, or an equal
    path keep the stored record); so candidates at [0], [1] and [0,1],
    in any of their six arrival orders on a new head state, leave the
    value given at [1]. *)
Theorem set_title_lexicographic :
  (forall (this : loc) (value : Title) (h : Heap),
      run (TreeHeadState.set_title this value ;; read_title this) h
      = if later_than (path value) (path (run (read_title this) h))
        then value else run (read_title this) h)
  /\ (forall (uid : loc) (h : Heap) (v0 v1 v01 : string) (order : list Title),
         Permutation
           [ {| path := [0%Z]; value := v0 |};
             {| path := [1%Z]; value := v1 |};
             {| path := [0%Z; 1%Z]; value := v01 |} ]
           order ->
         run (this <- TreeHeadState.new uid ;;
              set_titles this order ;;
              read_title this) h
         = {| path := [1%Z]; value := v1 |}).
Proof.
  split; [exact set_title_spec|].
  intros uid h v0 v1 v01 order P.
  rewrite !run_bind, read_title_after_set_titles, read_title_new.
  apply permutations_of_three in P.
  destruct P as [->|[->|[->|[->|[->| ->]]]]]; reflexivity.
Qed.



(** [later_than], in the words of the rule: after a common prefix the
    stored path has run out, or the candidate has the greater segment. *)
Lemma later_than_first_difference candidate stored :
  later_than candidate stored = true <->
  exists common c candidate',
    candidate = common ++ c :: candidate'
    /\ (stored = common
        \/ exists s stored', stored = common ++ s :: stored' /\ (s < c)%Z).
Proof.
  revert stored. induction candidate as [|c cs IH]; intros stored; simpl.
  - split; [discriminate|]. intros (common & x & rest & E & _).
    destruct common; discriminate.
  - destruct stored as [|s ss].
    + split; [|reflexivity]. intros _. exists [], c, cs. auto.
    + rewrite Z.gtb_ltb.
      destruct (Z.ltb_spec s c) as [L|L].
      * split; [|reflexivity]. intros _. exists [], c, cs.
        split; [reflexivity|]. right. exists s, ss. auto.
      * destruct (Z.ltb_spec c s) as [L'|L'].
        -- split; [discriminate|]. intros (common & x & rest & E & D).
           destruct common as [|y common]; simpl in E; inversion E; subst.
           ++ destruct D as [D|(s' & ss' & D & K)]; [discriminate|].
              inversion D; subst. lia.
           ++ destruct D as [D|(s' & ss' & D & K)]; inversion D; subst; lia.
        -- assert (c = s) by lia. subst s. rewrite IH. split.
           ++ intros (common & x & rest & E & D). exists (c :: common), x, rest.
              split; [now rewrite E|].
              destruct D as [D|(s' & ss' & D & K)]; [left | right].
              ** now rewrite D.
              ** exists s', ss'. split; [now rewrite D | exact K].
           ++ intros (common & x & rest & E & D).
              destruct common as [|y common]; simpl in E; inversion E; subst.
              ** destruct D as [D|(s' & ss' & D & K)]; [discriminate|].
                 inversion D; subst. lia.
              ** exists common, x, rest. split; [reflexivity|].
                 destruct D as [D|(s' & ss' & D & K)]; [left | right].
                 --- now inversion D.
                 --- exists s', ss'. split; [now inversion D | exact K].
Qed.

(** ** The css set *)

(** C7, as stated, fails: two records with the hash "svelte-1" and
    different code are both kept. *)
Lemma css_same_hash_two_entries :
  run (add_two (new_css {| hash := "svelte-1"; code := ".a{}" |})
               (new_css {| hash := "svelte-1"; code := ".b{}" |})
               "svelte-1") empty_heap
  <> 1.
Proof. vm_compute. discriminate. Qed.

(** C7, amended.  The css set is deduplicated by the identity of the
    record, not by its hash: adding one record twice leaves one entry for
    its hash, adding two records with the same hash leaves two. *)
Theorem css_deduplicated_by_identity (h : Heap) (k code1 code2 : string) :
  run (r <- new_css {| hash := k; code := code1 |} ;;
       add_two (ret r) (ret r) k) h = 1
  /\ run (add_two (new_css {| hash := k; code := code1 |})
                  (new_css {| hash := k; code := code2 |}) k) h = 2.
Proof.
  destruct h as [[n1 c1] [n2 c2] [n3 c3] [n4 c4] [n5 c5] [n6 c6]].
  split.
  - heap_eval. now rewrite String.eqb_refl.
  - heap_eval. now rewrite !String.eqb_refl.
Qed.

(** ** Copies *)

(** C8.  On a new tree state the stored title is the empty one; after a
    winning assignment through the head state of a copy, the original
    stores the candidate too: [TreeHeadState.copy] hands the copy the
    very title record of the original, and the setter writes into it. *)
Theorem copy_shares_title (h : Heap) (id_prefix : option string)
    (segment : Z) (rest : list Z) (v : string) :
  let value := {| path := segment :: rest; value := v |} in
  run (state <- TreeState.new id_prefix ;; state_title state) h
  = {| path := []; value := "" |}
  /\ run (state <- TreeState.new id_prefix ;;
          set_title_on_copy state value ;;
          state_title state) h
     = value.
Proof.
  destruct h as [[n1 c1] [n2 c2] [n3 c3] [n4 c4] [n5 c5] [n6 c6]].
  split; heap_eval; reflexivity.
Qed.

(** * Further properties *)

(** ** Blocking collection *)

(** X1.  [collect] throws exactly when some payload below the collected
    one has [promises.initial] set; otherwise it returns what the
    entries hold, in document order. *)
Theorem collect_throws_iff (now : time) (this : Payload) :
  (exists_items pending_initial (out this) = true
   <-> collect now this = Throw asynchronous_component)
  /\ (exists_items pending_initial (out this) = false
      <-> collect now this = Return (content_of (out this) (type this))).
Proof.
  rewrite collect_spec. unfold content_of, asynchronous_component.
  destruct (exists_items pending_initial (out this)); split; split;
    intros H; try reflexivity; try discriminate.
Qed.

(** When [collect] returns, awaiting the payload resolves at once with
    the same record. *)
Lemma then_of_collect {B} now this (onfulfilled : AccumulatedContent -> B) c :
  initial this = None ->
  collect now this = Return c ->
  then_ now this onfulfilled = {| settled_at := now; resolved := onfulfilled c |}.
Proof.
  intros Hi Hc. unfold collect in Hc. unfold then_, collect_content.
  destruct this as [o ty i f g l]. simpl in Hi. subst i.
  cbn [collect_content_loop initial flush start content head body empty_content
       truthy orb segments has_async app].
  change (collect_content_sub now (mkPayload o ty None f g l))
    with (collect_content now o ty empty_content).
  simpl out in Hc. simpl type in Hc.
  destruct (collect_content now o ty empty_content) as [c'|p]; [|discriminate].
  inversion Hc; subst c'. cbn.
  now destruct c.
Qed.

(** X2.  The two entry points agree: when [collect] returns a record,
    awaiting the same payload resolves, without waiting, with that
    record. *)
Theorem then_agrees_with_collect (now : time) (this : Payload)
    (c : AccumulatedContent) :
  initial this = None ->
  collect now this = Return c ->
  then_ now this (fun content => content) = {| settled_at := now; resolved := c |}.
Proof. intros Hi Hc. exact (then_of_collect now this _ c Hi Hc). Qed.

Lemma then_agrees_with_collect_witness :
  initial nested_channels = None
  /\ collect 0 nested_channels = Return {| head := "acd"; body := "b" |}
  /\ then_ 0 nested_channels (fun content => content)
     = {| settled_at := 0; resolved := {| head := "acd"; body := "b" |} |}.
Proof.
  split; [reflexivity|]. split; [reflexivity|].
  exact (then_agrees_with_collect 0 nested_channels _ eq_refl eq_refl).
Defined.

Lemma collect_entries_app now this extra :
  collect now (set_out this (out this ++ extra))
  = and_then (collect now this) (collect now (set_out this extra)).
Proof.
  rewrite !collect_spec. destruct this as [o ty i f g l].
  unfold set_out. cbn [out type].
  rewrite exists_items_app, fragments_of_items_app, document_order_app.
  destruct (exists_items pending_initial o), (exists_items pending_initial extra);
    reflexivity.
Qed.

(** X3.  [push] appends to the channel of the payload it is called on
    and leaves the other channel, and a pending error, as they were. *)
Theorem collect_push (now : time) (this : Payload) (fragment : string) :
  collect now (push this fragment)
  = match collect now this with
    | Return c => Return (append_to c (type this) fragment)
    | Throw m => Throw m
    end.
Proof.
  unfold push. rewrite collect_entries_app.
  rewrite (collect_spec now (set_out this [Str fragment])).
  destruct this as [o ty i f g l]. unfold set_out. cbn [out type exists_items].
  destruct (collect now (mkPayload o ty i f g l)) as [c|m]; [|reflexivity].
  cbn [and_then]. f_equal.
  cbn [fragments_of_items]. rewrite document_order_cons.
  change (document_order []) with empty_content.
  now rewrite concat_content_empty_r, <- append_to_concat.
Qed.

(** X4.  A child whose producer returns a promise makes [collect] on the
    parent throw; a child whose producer returns nothing contributes,
    after what the parent held, what [collect] gives for the child. *)
Theorem collect_child (now : time) (this : Payload)
    (render : Payload -> Payload * option (Promise (list Item)))
    (ty : option PayloadType) :
  let made := render (Payload_init (global this) (local this) (Some this) ty) in
  collect now (child this render ty)
  = match collect now this, snd made, initial (fst made) with
    | Throw m, _, _ => Throw m
    | Return _, Some _, _ => Throw asynchronous_component
    | Return _, None, Some _ => Throw asynchronous_component
    | Return c, None, None =>
        match collect now (fst made) with
        | Return inner => Return (concat_content c inner)
        | Throw m => Throw m
        end
    end.
Proof.
  cbv zeta. unfold child.
  destruct (render (Payload_init (global this) (local this) (Some this) ty))
    as [c r].
  cbn [fst snd]. rewrite collect_entries_app.
  rewrite (collect_spec now (set_out this _)).
  destruct (collect now this) as [before|m]; [|reflexivity].
  destruct this as [o pty i f g l]. unfold set_out. cbn [out type and_then].
  destruct c as [co cty ci cf cg cl].
  destruct r as [pr|]; cbn [exists_items set_initial initial out type followup
                             global local pending_initial orb].
  - reflexivity.
  - destruct ci as [pr|]; [reflexivity|].
    rewrite collect_spec. cbn [out type]. rewrite orb_false_r.
    destruct (exists_items pending_initial co); [reflexivity|].
    cbn [fragments_of_items]. rewrite app_nil_r.
    rewrite final_fragments_eq. reflexivity.
Qed.

(** ** Compaction with a transform *)

Lemma collect_with_placeholder now this before after placeholder :
  pending_initial placeholder = false ->
  collect now (set_out this (before ++ Sub placeholder :: after))
  = collect_around before after (type this)
      (document_order (final_fragments placeholder)).
Proof.
  intros H. rewrite collect_spec. unfold collect_around, content_of.
  destruct this as [o ty i f g l]. unfold set_out. cbn [out type].
  rewrite !exists_items_app. cbn [exists_items]. rewrite H. cbn [orb].
  destruct (exists_items pending_initial before || exists_items pending_initial after);
    [reflexivity|].
  rewrite fragments_of_items_app. cbn [fragments_of_items].
  now rewrite !document_order_app.
Qed.

(** X5.  Over a range without a pending producer, [compact] applies a
    synchronous transform at once: afterwards the node collects to what
    came before the range, then the transform of what the range held,
    then what came after. *)
Theorem compact_transform_in_place (now : time) (this : Payload)
    (start : Z) (end_ : option Z)
    (fn : AccumulatedContent -> AccumulatedContent) :
  exists_items pending_initial (compacted_range this start end_) = false ->
  exists before after,
    out this = before ++ compacted_range this start end_ ++ after
    /\ collect now (compact now this start end_ (fun content => Now (fn content)))
       = collect_around before after (type this)
           (fn (content_of (compacted_range this start end_) (type this))).
Proof.
  intros H.
  destruct (compact_settled_range now this start end_ (fun c => Now (fn c)) H)
    as (before & after & E1 & E2).
  exists before, after. split; [exact E1|]. rewrite E2.
  destruct (placeholder_content (global this) (local this) (Some this)
              (fn (content_of (compacted_range this start end_) (type this))))
    as (P1 & _ & P3).
  cbv zeta in P1, P3. unfold content_of in *. cbv beta.
  rewrite collect_with_placeholder by exact P1.
  now rewrite P3.
Qed.

Lemma compact_transform_in_place_witness :
  exists_items pending_initial (compacted_range three_entries 1 (Some 3%Z)) = false
  /\ exists before after,
       out three_entries = before ++ compacted_range three_entries 1 (Some 3%Z) ++ after
       /\ collect 0 (compact 0 three_entries 1 (Some 3%Z)
                       (fun content => Now (concat_content content content)))
          = collect_around before after (type three_entries)
              (concat_content
                 (content_of (compacted_range three_entries 1 (Some 3%Z))
                    (type three_entries))
                 (content_of (compacted_range three_entries 1 (Some 3%Z))
                    (type three_entries))).
Proof.
  split; [reflexivity|].
  exact (compact_transform_in_place 0 three_entries 1 (Some 3%Z)
           (fun c => concat_content c c) eq_refl).
Defined.

(** ** When suspending collection resolves *)

Lemma Promise_all_app {A} now (xs ys : list (MaybePromise A)) :
  settled_at (Promise_all now (xs ++ ys))
  = settled_at (Promise_all (settled_at (Promise_all now xs)) ys).
Proof. unfold Promise_all; simpl. now rewrite fold_left_app. Qed.

Lemma Promise_all_le {A} now (xs : list (MaybePromise A)) :
  now <= settled_at (Promise_all now xs).
Proof.
  unfold Promise_all; simpl. revert now.
  induction xs as [|[a|p] xs IH]; intros now; simpl; [lia | apply IH |].
  specialize (IH (Nat.max now (settled_at p))). lia.
Qed.

Lemma Promise_all_no_promise {A} now (xs : list (MaybePromise A)) :
  existsb instanceof_Promise xs = false ->
  settled_at (Promise_all now xs) = now.
Proof.
  unfold Promise_all; simpl.
  induction xs as [|[a|p] xs IH]; simpl; intros H; auto; discriminate.
Qed.

Lemma flush_time now st :
  settled_at (Promise_all now (segments (flush st)))
  = settled_at (Promise_all now (segments st)).
Proof.
  unfold flush.
  destruct (truthy (head (content st)) || truthy (body (content st)));
    [|reflexivity].
  cbn [segments]. now rewrite Promise_all_app.
Qed.

Lemma not_pending_latest p : pending_initial p = false -> latest_initial p = 0.
Proof.
  induction p as [o ty i f g l IHo _] using Payload_tree_ind.
  simpl. destruct i as [pr|]; [discriminate|]. intros H.
  induction IHo as [|[s|q] items Hq _ IH]; simpl in *; auto.
  apply orb_false_iff in H. destruct H as [H1 H2].
  now rewrite Hq, IH.
Qed.

Lemma latest_initial_eq p :
  latest_initial p
  = Nat.max (match initial p with Some pr => settled_at pr | None => 0 end)
            (latest_of_items latest_initial (final_out p)).
Proof. destruct p as [o ty [pr|] f g l]; reflexivity. Qed.

Section AsyncLoopTime.
Variable visit : Payload -> AccumulatedContent -> time -> AccumulatedContent * time.

Lemma collect_content_async_loop_time items :
  Forall (item_all (fun p => forall c t,
                        Nat.max t (latest_initial p) <= snd (visit p c t))) items ->
  forall ty c t,
    Nat.max t (latest_of_items latest_initial items)
    <= snd (collect_content_async_loop visit items ty c t).
Proof.
  induction 1 as [|i items Hi _ IH]; intros ty c t; simpl; [lia|].
  destruct i as [s|p]; simpl in *; [apply IH|].
  specialize (Hi c t). destruct (visit p c t) as [c' t']; simpl in Hi.
  specialize (IH ty c' t'). lia.
Qed.
End AsyncLoopTime.

Lemma collect_content_async_item_time item :
  forall c t,
    Nat.max t (latest_initial item) <= snd (collect_content_async_item item c t).
Proof.
  induction item as [o ty i f g l IHo IHr] using Payload_tree_ind.
  intros c t. rewrite collect_content_async_item_eq, latest_initial_eq.
  cbv zeta. cbn [initial followup type final_out].
  set (fs := match f with Some fs => fs | None => [] end).
  destruct i as [pr|].
  - pose proof (await_le_l pr t). pose proof (await_le_r pr t).
    pose proof (await_each_le fs (await pr t)).
    rewrite out_at_settled by lia.
    pose proof (collect_content_async_loop_time collect_content_async_item
                  (resolved pr) IHr ty c (await_each fs (await pr t))).
    lia.
  - pose proof (await_each_le fs t).
    pose proof (collect_content_async_loop_time collect_content_async_item
                  o IHo ty c (await_each fs t)).
    cbn [out_at]. lia.
Qed.

Lemma collect_content_async_time items ty c t :
  Nat.max t (latest_of_items latest_initial items)
  <= snd (collect_content_async items ty c t).
Proof.
  unfold collect_content_async. apply collect_content_async_loop_time.
  apply Forall_item_all. intros p c' t'. apply collect_content_async_item_time.
Qed.

Lemma settled_at_async_call {A} now (f : time -> A * time) :
  settled_at (async_call now f) = snd (f now).
Proof. unfold async_call. now destruct (f now). Qed.

Section BlockingLoopTime.
Variable now : time.
Variable collect_sub : Payload -> MaybePromise AccumulatedContent.

Lemma collect_content_loop_time items :
  Forall (item_all (sub_time_ok now collect_sub)) items ->
  forall ty st,
    Nat.max (settled_at (Promise_all now (segments st)))
            (latest_of_items latest_initial items)
    <= settled_at (Promise_all now (segments
                     (collect_content_loop now collect_sub items ty st))).
Proof.
  induction 1 as [|i items Hi _ IH]; intros ty st; simpl; [lia|].
  destruct i as [s|p]; simpl in Hi.
  - match goal with |- context [collect_content_loop _ _ _ _ ?s0] =>
      specialize (IH ty s0) end.
    cbn [segments] in IH. exact IH.
  - match goal with |- context [collect_content_loop _ _ _ _ ?s0] =>
      specialize (IH ty s0) end.
    pose proof (flush_time now st) as F.
    pose proof (Promise_all_le now (segments (flush st))) as L.
    destruct p as [o pty [pr|] f g l]; cbn [initial segments] in IH |- *.
    + rewrite Promise_all_app in IH.
      cbn [Promise_all settled_at fold_left] in IH.
      rewrite settled_at_async_call in IH.
      pose proof (collect_content_async_time
                    [Sub (mkPayload o pty (Some pr) f g l)] ty empty_content now) as T.
      cbn [latest_of_items] in T.
      cbn [Promise_all settled_at] in *. lia.
    + unfold sub_time_ok in Hi. cbn [out] in Hi.
      rewrite Promise_all_app in IH.
      rewrite (latest_initial_eq (mkPayload o pty None f g l)).
      cbn [initial final_out].
      destruct (collect_sub (mkPayload o pty None f g l)) as [c|q];
        cbn [available] in Hi;
        cbn [Promise_all settled_at fold_left] in *; lia.
Qed.
End BlockingLoopTime.

Lemma collect_content_of_loop_time now collect_sub items ty c :
  Forall (item_all (sub_ok collect_sub)) items ->
  Forall (item_all (sub_time_ok now collect_sub)) items ->
  Nat.max now (latest_of_items latest_initial items)
  <= available now
       (collect_content_return now
          (collect_content_loop now collect_sub items ty (start c))).
Proof.
  intros Hv Ht.
  pose proof (collect_content_loop_time now collect_sub items Ht ty (start c)) as T.
  destruct (collect_content_loop_spec now collect_sub items Hv ty (start c))
    as (_ & _ & C).
  specialize (C (start_consistent c)). apply flush_consistent in C.
  cbn [start segments] in T.
  change (settled_at (Promise_all now [])) with now in T.
  rewrite <- flush_time in T.
  unfold collect_content_return.
  destruct (has_async (flush _)) eqn:E; cbn [available].
  - unfold Promise_then. cbn [settled_at]. exact T.
  - unfold consistent in C. rewrite E in C.
    rewrite Promise_all_no_promise in T by (symmetry; exact C). exact T.
Qed.

Lemma collect_content_sub_time now p : sub_time_ok now (collect_content_sub now) p.
Proof.
  induction p as [o ty i f g l IHo _] using Payload_tree_ind.
  unfold sub_time_ok. cbn [out].
  change (collect_content_sub now (mkPayload o ty i f g l))
    with (collect_content_return now
            (collect_content_loop now (collect_content_sub now) o ty
               (start empty_content))).
  pose proof (collect_content_of_loop_time now (collect_content_sub now) o ty
                empty_content
                (Forall_item_all _ _ (collect_content_sub_ok now)) IHo).
  lia.
Qed.

Lemma collect_content_time now items ty c :
  Nat.max now (latest_of_items latest_initial items)
  <= available now (collect_content now items ty c).
Proof.
  apply collect_content_of_loop_time.
  - apply Forall_item_all, collect_content_sub_ok.
  - apply Forall_item_all, collect_content_sub_time.
Qed.

(** X6.  Awaiting a payload never resolves before the call, nor before
    any producer recorded in the tree has settled. *)
Theorem then_waits_for_producers {B} (now : time) (this : Payload)
    (onfulfilled : AccumulatedContent -> B) :
  Nat.max now (latest_initial this) <= settled_at (then_ now this onfulfilled).
Proof.
  unfold then_.
  pose proof (collect_content_time now [Sub this] (type this) empty_content) as T.
  cbn [latest_of_items] in T.
  destruct (collect_content now [Sub this] (type this) empty_content) as [c|p];
    cbn [available settled_at] in *; unfold await; lia.
Qed.

Lemma without_followups_eq p :
  without_followups p
  = match followup p with
    | None | Some [] => forall_items without_followups (final_out p)
    | Some (_ :: _) => false
    end.
Proof. destruct p as [o ty [pr|] f g l]; reflexivity. Qed.

Lemma without_followups_await_each p t :
  without_followups p = true ->
  await_each (match followup p with Some fs => fs | None => [] end) t = t.
Proof.
  rewrite without_followups_eq.
  destruct (followup p) as [[|f fs]|]; [reflexivity | discriminate | reflexivity].
Qed.

Lemma without_followups_below p :
  without_followups p = true ->
  forall_items without_followups (final_out p) = true.
Proof.
  rewrite without_followups_eq.
  destruct (followup p) as [[|f fs]|]; auto; discriminate.
Qed.

Lemma not_pending_latest_items items :
  exists_items pending_initial items = false ->
  latest_of_items latest_initial items = 0.
Proof.
  induction items as [|[s|q] items IH]; simpl; auto.
  intros H. apply orb_false_iff in H. destruct H as [H1 H2].
  now rewrite not_pending_latest, IH.
Qed.

Section AsyncLoopExact.
Variable visit : Payload -> AccumulatedContent -> time -> AccumulatedContent * time.

Lemma collect_content_async_loop_exact items :
  Forall (item_all (fun p => without_followups p = true ->
                             forall c t,
                               snd (visit p c t) = Nat.max t (latest_initial p)))
         items ->
  forall_items without_followups items = true ->
  forall ty c t,
    snd (collect_content_async_loop visit items ty c t)
    = Nat.max t (latest_of_items latest_initial items).
Proof.
  induction 1 as [|i items Hi _ IH]; intros W ty c t; simpl; [lia|].
  destruct i as [s|p]; simpl in *; [now apply IH|].
  apply andb_true_iff in W. destruct W as [W1 W2].
  specialize (Hi W1 c t). destruct (visit p c t) as [c' t']; simpl in Hi.
  rewrite (IH W2 ty c' t'). lia.
Qed.
End AsyncLoopExact.

Lemma collect_content_async_item_exact item :
  without_followups item = true ->
  forall c t,
    snd (collect_content_async_item item c t) = Nat.max t (latest_initial item).
Proof.
  induction item as [o ty i f g l IHo IHr] using Payload_tree_ind.
  intros W c t. rewrite collect_content_async_item_eq, latest_initial_eq.
  cbv zeta. rewrite without_followups_await_each by exact W.
  apply without_followups_below in W.
  cbn [initial type final_out] in *.
  destruct i as [pr|].
  - rewrite out_at_settled by apply await_le_r.
    rewrite (collect_content_async_loop_exact collect_content_async_item
               (resolved pr) IHr W).
    unfold await. lia.
  - cbn [out_at].
    rewrite (collect_content_async_loop_exact collect_content_async_item o IHo W).
    lia.
Qed.

Section BlockingLoopExact.
Variable now : time.
Variable collect_sub : Payload -> MaybePromise AccumulatedContent.

Lemma collect_content_loop_exact items :
  Forall (item_all (sub_exact now collect_sub)) items ->
  forall_items without_followups items = true ->
  forall ty st,
    settled_at (Promise_all now (segments
                  (collect_content_loop now collect_sub items ty st)))
    = Nat.max (settled_at (Promise_all now (segments st)))
              (latest_of_items latest_initial items).
Proof.
  induction 1 as [|i items Hi _ IH]; intros W ty st;
    cbn [collect_content_loop latest_of_items forall_items] in *; [lia|].
  destruct i as [s|p]; cbn [item_all] in Hi.
  - rewrite (IH W). reflexivity.
  - apply andb_true_iff in W. destruct W as [W1 W2].
    rewrite (IH W2). clear IH.
    pose proof (flush_time now st) as F.
    pose proof (Promise_all_le now (segments (flush st))) as L.
    destruct p as [o pty [pr|] f g l]; cbn [initial segments].
    + rewrite Promise_all_app.
      pose proof (collect_content_async_item_exact
                    (mkPayload o pty (Some pr) f g l) W1 empty_content now) as T.
      unfold Promise_all at 1. cbn [settled_at fold_left].
      rewrite settled_at_async_call.
      unfold collect_content_async. cbn [collect_content_async_loop].
      destruct (collect_content_async_item _ empty_content now) as [c' t'].
      cbn [snd] in *. subst t'. lia.
    + specialize (Hi W1 eq_refl). cbn [out] in Hi.
      rewrite Promise_all_app.
      rewrite (latest_initial_eq (mkPayload o pty None f g l)).
      cbn [initial final_out].
      unfold Promise_all at 1. cbn [settled_at fold_left].
      destruct (collect_sub (mkPayload o pty None f g l)) as [c|q];
        cbn [available] in Hi; lia.
Qed.
End BlockingLoopExact.

Lemma collect_content_of_loop_exact now collect_sub items ty c :
  Forall (item_all (sub_ok collect_sub)) items ->
  Forall (item_all (sub_exact now collect_sub)) items ->
  forall_items without_followups items = true ->
  available now
    (collect_content_return now
       (collect_content_loop now collect_sub items ty (start c)))
  = Nat.max now (latest_of_items latest_initial items).
Proof.
  intros Hv Ht W.
  pose proof (collect_content_loop_exact now collect_sub items Ht W ty (start c)) as T.
  destruct (collect_content_loop_spec now collect_sub items Hv ty (start c))
    as (_ & _ & C).
  specialize (C (start_consistent c)). apply flush_consistent in C.
  cbn [start segments] in T.
  change (settled_at (Promise_all now [])) with now in T.
  rewrite <- flush_time in T.
  unfold collect_content_return.
  destruct (has_async (flush _)) eqn:E; cbn [available].
  - unfold Promise_then. cbn [settled_at]. exact T.
  - unfold consistent in C. rewrite E in C.
    rewrite Promise_all_no_promise in T by (symmetry; exact C). exact T.
Qed.

Lemma collect_content_sub_exact now p : sub_exact now (collect_content_sub now) p.
Proof.
  induction p as [o ty i f g l IHo _] using Payload_tree_ind.
  unfold sub_exact. cbn [out initial]. intros W ->.
  apply without_followups_below in W. cbn [final_out] in W.
  change (collect_content_sub now (mkPayload o ty None f g l))
    with (collect_content_return now
            (collect_content_loop now (collect_content_sub now) o ty
               (start empty_content))).
  apply collect_content_of_loop_exact; auto.
  apply Forall_item_all, collect_content_sub_ok.
Qed.

(** X7.  On a tree in which no compaction followup is recorded, awaiting
    a payload resolves exactly when the last producer settles (at once
    when there is none), with the fragments the producers leave, in
    document order: neither the time nor the order of the result depends
    on the order in which producers settle. *)
Theorem then_without_followups {B} (now : time) (this : Payload)
    (onfulfilled : AccumulatedContent -> B) :
  without_followups this = true ->
  then_ now this onfulfilled
  = {| settled_at := Nat.max now (latest_initial this);
       resolved := onfulfilled (document_order (final_fragments this)) |}.
Proof.
  intros W. unfold then_.
  destruct (collect_content_spec now [Sub this] (type this) empty_content)
    as [V _].
  cbn [fragments_of_items] in V. rewrite app_nil_r, concat_content_empty_l in V.
  assert (T : available now (collect_content now [Sub this] (type this) empty_content)
              = Nat.max now (latest_initial this)).
  { unfold collect_content.
    rewrite collect_content_of_loop_exact.
    - cbn [latest_of_items]. lia.
    - apply Forall_item_all, collect_content_sub_ok.
    - apply Forall_item_all, collect_content_sub_exact.
    - cbn [forall_items]. now rewrite W. }
  destruct (collect_content now [Sub this] (type this) empty_content) as [c|p];
    cbn [available settled_value] in *; subst; f_equal.
  - lia.
  - unfold await. lia.
  - now rewrite V.
Qed.

Lemma then_without_followups_witness :
  without_followups two_producers = true
  /\ then_ 1 two_producers (fun content => content)
     = {| settled_at := 5; resolved := {| head := "b"; body := "xa" |} |}.
Proof.
  split; [reflexivity|].
  exact (then_without_followups 1 two_producers (fun c => c) eq_refl).
Defined.

(** ** Deferred compaction *)





(** ** Pushing accumulated content *)

Lemma push_accumulated_content_eq tree c :
  push_accumulated_content tree (Now c)
  = set_out tree (out (push_accumulated_content tree (Now c))).
Proof.
  destruct tree as [o ty i f g l], c as [h b].
  unfold push_accumulated_content; simpl.
  destruct (truthy h), (truthy b); reflexivity.
Qed.

(** X9.  [#push_accumulated_content] with a two-channel record adds to
    what the tree collects to exactly that record (one leaf for each
    non-empty channel, none for an empty one); handed a promise instead,
    it leaves the tree as it was. *)
Theorem push_accumulated_content_collect (now : time) (tree : Payload)
    (c : AccumulatedContent) (p : Promise AccumulatedContent) :
  collect now (push_accumulated_content tree (Now c))
  = and_then (collect now tree) (Return c)
  /\ length (out (push_accumulated_content tree (Now c)))
     = length (out tree)
       + (if truthy (head c) then 1 else 0) + (if truthy (body c) then 1 else 0)
  /\ push_accumulated_content tree (Later p) = tree.
Proof.
  split; [|split; [|reflexivity]].
  - rewrite push_accumulated_content_eq, push_accumulated_content_leaves.
    rewrite collect_entries_app. f_equal.
    rewrite collect_spec. destruct tree as [o ty i f g l], c as [[|a h] [|b bd]];
      unfold set_out, document_order; simpl; rewrite ?string_app_nil_r; reflexivity.
  - rewrite push_accumulated_content_leaves, !length_app.
    destruct (truthy (head c)), (truthy (body c)); simpl; lia.
Qed.

(** ** The title slot, for any candidates *)












(** ** The id generator *)





(** ** Copies and subsumed states on the heap *)

(** As [heap_step], in the hypotheses too, with the accessors below
    and without unfolding the membership test of [Set.add]. *)
Ltac heap_step' :=
  cbv beta iota zeta delta
    [run exec bind ret state_title set_title_on_copy read_title
     count_hash add_two css_entries head_css_entries css_add head_css_add allocated
     TreeState.copy TreeState.head TreeState.css TreeState.uid TreeState.new TreeState.subsume
     TreeHeadState.set_title TreeHeadState.copy TreeHeadState.title
     TreeHeadState.css TreeHeadState.uid
     TreeHeadState.new TreeHeadState.subsume TreeHeadState.compare_from
     Set_from Set_add props_id_generator
     get_tree_state put_tree_state new_tree_state
     get_head_state put_head_state new_head_state
     get_title put_title new_title get_css new_css
     get_set put_set new_set new_closure get_closure put_closure alloc write
     fst snd titles sets csses closures head_states tree_states next cell
     head_css head_uid head_title state_uid state_css state_head
     with_path with_value path value hash code
     Nat.max length nth_error orb filter] in *.

Ltac decide_eqb' :=
  repeat match goal with
         | |- context [Nat.eqb ?a ?b] =>
             first
               [ replace (Nat.eqb a b) with true
                   by (symmetry; apply Nat.eqb_eq; lia)
               | replace (Nat.eqb a b) with false
                   by (symmetry; apply Nat.eqb_neq; lia) ]
         end.

Ltac heap_eval' := repeat (heap_step'; progress decide_eqb'); heap_step'.

(** X12.  [TreeState.copy] gives the copy css sets of its own, for the
    state and for its head: they start with the entries of the
    original, an [add] through the copy is not seen through the
    original nor the other way round, and the copy keeps the id
    generator of the original. *)
Theorem copy_own_css (h : Heap) (state r : loc) :
  allocated h state ->
  let copy := run (TreeState.copy state) h in
  let h' := exec (TreeState.copy state) h in
  run (css_entries copy) h' = run (css_entries state) h
  /\ run (css_entries state) h' = run (css_entries state) h
  /\ run (css_add copy r ;; css_entries state) h' = run (css_entries state) h
  /\ run (css_add state r ;; css_entries copy) h' = run (css_entries state) h
  /\ run (css_add copy r ;; css_entries copy) h'
     = added (run (css_entries state) h) r
  /\ run (head_css_entries copy) h' = run (head_css_entries state) h
  /\ run (head_css_add copy r ;; head_css_entries state) h'
     = run (head_css_entries state) h
  /\ run (head_css_add state r ;; head_css_entries copy) h'
     = run (head_css_entries state) h
  /\ run (TreeState.uid copy) h' = run (TreeState.uid state) h.
Proof.
  destruct h as [[n1 c1] [n2 c2] [n3 c3] [n4 c4] [n5 c5] [n6 c6]].
  intros A. heap_step'. destruct A as (A1 & A2 & A3 & A4 & A5).
  unfold added.
  repeat split; heap_eval';
    try (destruct (existsb _ _); heap_eval'); reflexivity.
Qed.

Lemma copy_own_css_witness :
  allocated one_state 0
  /\ run (css_add (run (TreeState.copy 0) one_state) 7 ;; css_entries 0)
         (exec (TreeState.copy 0) one_state)
     = run (css_entries 0) one_state.
Proof.
  assert (A : allocated one_state 0) by (vm_compute; repeat split; lia).
  split; [exact A|].
  exact (proj1 (proj2 (proj2 (copy_own_css one_state 0 7 A)))).
Defined.

(** X13.  [TreeState.subsume] takes over references: afterwards [this]
    has the css set and the id generator of [other], keeps its own head
    state object, whose css set, title record and id generator are those
    of the head of [other]; so an [add] to the css of [other] made
    later is seen through [this]. *)
Theorem subsume_shares (h : Heap) (this other r : loc) :
  let h' := exec (TreeState.subsume this other) h in
  run (TreeState.css this) h' = run (TreeState.css other) h
  /\ run (TreeState.uid this) h' = run (TreeState.uid other) h
  /\ run (TreeState.head this) h' = run (TreeState.head this) h
  /\ run (hd <- TreeState.head this ;; TreeHeadState.css hd) h'
     = run (hd <- TreeState.head other ;; TreeHeadState.css hd) h
  /\ run (hd <- TreeState.head this ;; TreeHeadState.title hd) h'
     = run (hd <- TreeState.head other ;; TreeHeadState.title hd) h
  /\ run (hd <- TreeState.head this ;; TreeHeadState.uid hd) h'
     = run (hd <- TreeState.head other ;; TreeHeadState.uid hd) h
  /\ run (css_add other r ;; css_entries this) h'
     = added (run (css_entries other) h) r.
Proof.
  destruct h as [[n1 c1] [n2 c2] [n3 c3] [n4 c4] [n5 c5] [n6 c6]].
  unfold added. heap_step'.
  destruct (Nat.eq_dec this other) as [->|D].
  - heap_eval'. destruct (c6 other) as [u s hd]. heap_eval'.
    destruct (c5 hd) as [hc hu ht].
    repeat split; heap_eval';
      try (destruct (existsb _ _); heap_eval'); reflexivity.
  - destruct (c6 this) as [u1 s1 h1] eqn:E1, (c6 other) as [u2 s2 h2] eqn:E2.
    destruct (Nat.eq_dec h1 h2) as [->|D2];
      [destruct (c5 h2) as [hc hu ht] eqn:E3
      |destruct (c5 h1) as [hc1 hu1 ht1] eqn:E3, (c5 h2) as [hc2 hu2 ht2] eqn:E4];
      repeat split; heap_eval';
      repeat (rewrite ?E1, ?E2, ?E3, ?E4; heap_eval');
      try (destruct (existsb _ _); heap_eval';
           repeat (rewrite ?E1, ?E2, ?E3, ?E4; heap_eval')); reflexivity.
Qed.

(** X14.  What was added to the css of a copy reaches the original when
    the original subsumes the copy. *)
Theorem copy_subsume_round_trip (h : Heap) (state r : loc) :
  allocated h state ->
  run (copy <- TreeState.copy state ;;
       css_add copy r ;;
       TreeState.subsume state copy ;;
       css_entries state) h
  = added (run (css_entries state) h) r.
Proof.
  destruct h as [[n1 c1] [n2 c2] [n3 c3] [n4 c4] [n5 c5] [n6 c6]].
  intros A. heap_step'. destruct A as (A1 & A2 & A3 & A4 & A5).
  unfold added.
  heap_eval'; try (destruct (existsb _ _); heap_eval'); reflexivity.
Qed.

Lemma copy_subsume_round_trip_witness :
  allocated one_state 0
  /\ run (copy <- TreeState.copy 0 ;;
          css_add copy 7 ;;
          TreeState.subsume 0 copy ;;
          css_entries 0) one_state
     = added (run (css_entries 0) one_state) 7.
Proof.
  assert (A : allocated one_state 0) by (vm_compute; repeat split; lia).
  split; [exact A|].
  exact (copy_subsume_round_trip one_state 0 7 A).
Defined.

(** ** The account stores *)

Lemma find_name_none (name : string) (users : list User) :
  find (fun u => username u =? name) users = None <-> ~ In name (map username users).
Proof.
  induction users as [|u users IH]; simpl.
  - tauto.
  - destruct (String.eqb_spec (username u) name) as [E|E].
    + split; [discriminate | intros H; exfalso; apply H; now left].
    + rewrite IH. tauto.
Qed.

Lemma find_pair_some (name pass : string) (users : list User) :
  find (fun u => (username u =? name) && (password u =? pass)) users <> None
  <-> In {| username := name; password := pass |} users.
Proof.
  induction users as [|[n p] users IH]; simpl.
  - split; [congruence | tauto].
  - destruct (String.eqb_spec n name) as [E|E];
      destruct (String.eqb_spec p pass) as [F|F]; simpl.
    + subst. split; [now left | discriminate].
    + rewrite IH. split; [tauto | intros [H|H]; [congruence | exact H]].
    + rewrite IH. split; [tauto | intros [H|H]; [congruence | exact H]].
    + rewrite IH. split; [tauto | intros [H|H]; [congruence | exact H]].
Qed.

Lemma signup_cases (name pass : string) (s : Stores) :
  (In name (usernames s) /\ signup name pass s = (Throw user_exists, s))
  \/ (~ In name (usernames s)
      /\ signup name pass s
         = (Return tt,
            {| users_item :=
                 Some (parse_users s ++ [{| username := name; password := pass |}]);
               currentUser := Some name |})).
Proof.
  unfold signup, usernames.
  destruct (find _ (parse_users s)) eqn:F.
  - left. split; [|reflexivity].
    destruct (in_dec string_dec name (map username (parse_users s))) as [I|I];
      [exact I|].
    apply find_name_none in I. congruence.
  - right. split; [|reflexivity]. now apply find_name_none.
Qed.

Lemma login_cases (name pass : string) (s : Stores) :
  (In {| username := name; password := pass |} (parse_users s)
   /\ login name pass s
      = (Return tt, {| users_item := users_item s; currentUser := Some name |}))
  \/ (~ In {| username := name; password := pass |} (parse_users s)
      /\ login name pass s = (Throw wrong_credentials, s)).
Proof.
  unfold login. cbv zeta.
  pose proof (find_pair_some name pass (parse_users s)) as F.
  destruct (find _ (parse_users s)).
  - left. split; [|reflexivity]. apply F. discriminate.
  - right. split; [|reflexivity]. intros I. apply F in I. congruence.
Qed.

Lemma call_users (c : Call) (s : Stores) :
  parse_users (snd (call c s)) = parse_users s
  \/ exists name pass,
       ~ In name (usernames s)
       /\ parse_users (snd (call c s))
          = parse_users s ++ [{| username := name; password := pass |}].
Proof.
  destruct c as [name pass|name pass]; simpl.
  - destruct (signup_cases name pass s) as [[_ ->]|[N ->]]; [now left|].
    right. exists name, pass. split; [exact N | reflexivity].
  - left. destruct (login_cases name pass s) as [[_ ->]|[_ ->]]; reflexivity.
Qed.

(** X15.  A second [signup] under a name always throws the error of the
    taken name and leaves storage and [currentUser] as the first left
    them, whatever the first did and whatever the passwords. *)
Theorem signup_same_name_again (name pass pass' : string) (s : Stores) :
  let s1 := snd (signup name pass s) in
  signup name pass' s1 = (Throw user_exists, s1).
Proof.
  cbv zeta.
  assert (I : In name (usernames (snd (signup name pass s)))).
  { destruct (signup_cases name pass s) as [[I ->]|[_ ->]]; [exact I|].
    unfold usernames. cbn [snd parse_users users_item].
    rewrite map_app. apply in_or_app. right. now left. }
  destruct (signup_cases name pass' (snd (signup name pass s))) as [[_ E]|[N _]];
    [exact E | contradiction].
Qed.

(** X16.  After a [signup] that returned, [login] with the same name and
    password returns and changes nothing: the user is stored and is
    already the current user. *)
Theorem login_after_signup (name pass : string) (s : Stores) :
  fst (signup name pass s) = Return tt ->
  let s1 := snd (signup name pass s) in
  login name pass s1 = (Return tt, s1)
  /\ currentUser s1 = Some name.
Proof.
  cbv zeta. intros R.
  destruct (signup_cases name pass s) as [[_ E]|[_ E]]; rewrite E in *;
    [discriminate|].
  cbn [snd]. split; [|reflexivity].
  match goal with |- login _ _ ?st = _ =>
    destruct (login_cases name pass st) as [[_ L]|[N _]] end.
  - exact L.
  - exfalso. apply N. cbn [parse_users users_item].
    apply in_or_app. right. now left.
Qed.

Lemma login_after_signup_witness :
  fst (signup "ann" "pw" initial_stores) = Return tt
  /\ login "ann" "pw" (snd (signup "ann" "pw" initial_stores))
     = (Return tt, snd (signup "ann" "pw" initial_stores)).
Proof.
  split; [reflexivity|].
  exact (proj1 (login_after_signup "ann" "pw" initial_stores eq_refl)).
Defined.

(** X17.  [login] returns exactly when the pair of name and password is
    stored; it never writes the storage; when it throws, [currentUser]
    is unchanged too, and when it returns, [currentUser] is the name. *)
Theorem login_registered_pair (name pass : string) (s : Stores) :
  (fst (login name pass s) = Return tt
   <-> In {| username := name; password := pass |} (parse_users s))
  /\ users_item (snd (login name pass s)) = users_item s
  /\ (fst (login name pass s) = Throw wrong_credentials
      \/ fst (login name pass s) = Return tt)
  /\ (fst (login name pass s) = Throw wrong_credentials ->
      snd (login name pass s) = s)
  /\ (fst (login name pass s) = Return tt ->
      currentUser (snd (login name pass s)) = Some name).
Proof.
  destruct (login_cases name pass s) as [[I ->]|[N ->]]; cbn [fst snd users_item currentUser].
  - repeat split; auto; discriminate.
  - repeat split; auto; try discriminate. intros I. contradiction.
Qed.

Lemma after_calls_app (cs : list Call) (c : Call) (s : Stores) :
  after_calls (cs ++ [c]) s = snd (call c (after_calls cs s)).
Proof. unfold after_calls. now rewrite fold_left_app. Qed.

Lemma after_calls_distinct (cs : list Call) (s : Stores) :
  NoDup (usernames s) -> NoDup (usernames (after_calls cs s)).
Proof.
  intros D. induction cs as [|c cs IH] using rev_ind; [exact D|].
  rewrite after_calls_app.
  unfold usernames in *.
  destruct (call_users c (after_calls cs s)) as [->|(name & pass & N & ->)];
    [exact IH|].
  rewrite map_app. cbn [map username].
  apply NoDup_app; [exact IH | repeat constructor; simpl; tauto|].
  intros x I [<-|[]]. exact (N I).
Qed.

(** X18.  From the empty storage on, no sequence of calls stores two
    users under one name. *)
Theorem usernames_stay_distinct (cs : list Call) :
  NoDup (usernames (after_calls cs initial_stores)).
Proof. apply after_calls_distinct. constructor. Qed.

Lemma stored_pair_stays (cs : list Call) (s : Stores) (u : User) :
  In u (parse_users s) -> In u (parse_users (after_calls cs s)).
Proof.
  intros I. induction cs as [|c cs IH] using rev_ind; [exact I|].
  rewrite after_calls_app.
  destruct (call_users c (after_calls cs s)) as [->|(name & pass & _ & ->)];
    [exact IH | apply in_or_app; now left].
Qed.

Lemma distinct_names_one_password (users : list User) (name pass pass' : string) :
  NoDup (map username users) ->
  In {| username := name; password := pass |} users ->
  In {| username := name; password := pass' |} users ->
  pass = pass'.
Proof.
  induction users as [|u users IH]; simpl; [tauto|].
  intros D [E|I] [E'|I']; inversion D as [|? ? N D']; subst.
  - congruence.
  - exfalso. apply N. simpl. apply (in_map username) in I'. exact I'.
  - exfalso. apply N. simpl. apply (in_map username) in I. exact I.
  - now apply IH.
Qed.

(** X19.  The password of a stored user is never changed: where the
    stored names are distinct and [name] is stored with [pass], after
    any sequence of calls [login] under [name] returns with [pass] and
    with no other password. *)
Theorem password_never_changes (cs : list Call) (s : Stores)
    (name pass pass' : string) :
  NoDup (usernames s) ->
  In {| username := name; password := pass |} (parse_users s) ->
  fst (login name pass' (after_calls cs s)) = Return tt <-> pass' = pass.
Proof.
  intros D I.
  pose proof (after_calls_distinct cs s D) as D'.
  pose proof (stored_pair_stays cs s _ I) as I'.
  destruct (login_cases name pass' (after_calls cs s)) as [[J ->]|[N ->]];
    cbn [fst].
  - split; [intros _ | reflexivity].
    exact (distinct_names_one_password _ _ _ _ D' J I').
  - split; [discriminate|]. intros ->. contradiction.
Qed.

Lemma password_never_changes_witness :
  NoDup (usernames (snd (signup "ann" "a" initial_stores)))
  /\ In {| username := "ann"; password := "a" |}
       (parse_users (snd (signup "ann" "a" initial_stores)))
  /\ (fst (login "ann" "c"
             (after_calls [Signup "bob" "b"; Signup "ann" "c"]
                (snd (signup "ann" "a" initial_stores)))) = Return tt
      <-> "c" = "a").
Proof.
  assert (D : NoDup (usernames (snd (signup "ann" "a" initial_stores)))).
  { repeat constructor; simpl; tauto. }
  assert (I : In {| username := "ann"; password := "a" |}
                (parse_users (snd (signup "ann" "a" initial_stores)))).
  { now left. }
  split; [exact D|]. split; [exact I|].
  exact (password_never_changes [Signup "bob" "b"; Signup "ann" "c"]
           (snd (signup "ann" "a" initial_stores)) "ann" "a" "c" D I).
Defined.

(** X20.  From the empty storage on, [currentUser] is [null] or names a
    stored user, after any sequence of calls. *)
Theorem currentUser_is_stored (cs : list Call) (name : string) :
  currentUser (after_calls cs initial_stores) = Some name ->
  In name (usernames (after_calls cs initial_stores)).
Proof.
  revert name. induction cs as [|c cs IH] using rev_ind; [discriminate|].
  intros name. rewrite after_calls_app.
  set (s := after_calls cs initial_stores) in *.
  destruct c as [n p|n p]; cbn [call].
  - destruct (signup_cases n p s) as [[_ ->]|[_ ->]]; cbn [snd currentUser].
    + apply IH.
    + intros [= <-]. unfold usernames. cbn [parse_users users_item].
      rewrite map_app. apply in_or_app. right. now left.
  - destruct (login_cases n p s) as [[I ->]|[_ ->]]; cbn [snd currentUser].
    + intros [= <-]. unfold usernames. cbn [parse_users users_item].
      apply (in_map username) in I. exact I.
    + apply IH.
Qed.

Lemma currentUser_is_stored_witness :
  currentUser (after_calls [Signup "ann" "a"; Login "ann" "a"] initial_stores)
  = Some "ann"
  /\ In "ann" (usernames
       (after_calls [Signup "ann" "a"; Login "ann" "a"] initial_stores)).
Proof.
  split; [reflexivity|].
  exact (currentUser_is_stored [Signup "ann" "a"; Login "ann" "a"] "ann" eq_refl).
Defined.
